(** * PollenStore: a log-structured key-value store

    A shallow embedding of [pollen/disk_store.py] (the [DiskStorage] engine)
    together with the record codec it imports from [pollen.format], and the
    properties of the engine that follow from the code.

    Conventions of the embedding:
    - a Python [bytes] value is a [list byte];
    - a Python [str] is the list of its Unicode code points ([list N]);
    - a Python [int] is a [Z] (unbounded, no wrap-around);
    - the key directory ([dict[str, KeyEntry]]) is a [gmap];
    - a method of [DiskStorage] is a computation in a state-and-exception
      monad over the engine object: a raised exception keeps the mutations
      performed before the raise, as in Python. *)

From Stdlib Require Import ZArith NArith Lia List Bool.
From Stdlib Require Import Init.Byte Strings.String Strings.Ascii.
From stdpp Require Import base option list gmap.
From Equations Require Import Equations.

Import ListNotations.
Local Open Scope Z_scope.

(* ===================================================================== *)
(** ** Bytes and strings *)
(* ===================================================================== *)

Abbreviation bytes := (list byte).

(** A Python [str]: a sequence of code points. *)
Abbreviation str := (list N).

Definition byte_of_N (n : N) : byte :=
  match Byte.of_N (n mod 256) with
  | Some b => b
  | None => x00
  end.

(** Python's [len], as a Python [int]. *)
Definition len {A} (l : list A) : Z := Z.of_nat (length l).

(** Python exceptions raised by the codec and by the engine. *)
Inductive exn : Type :=
| RangeError            (* struct.error: a header field does not fit 32 bits *)
| MalformedInputError   (* struct.error: wrong buffer length on decode *)
| EncodingError         (* UnicodeEncodeError / UnicodeDecodeError *)
| ValueError            (* I/O operation on closed file; failed open *)
| OSError.              (* failure of a write, flush, fsync or seek *)

Inductive result (A : Type) : Type :=
| Ok (a : A)
| Raise (e : exn).
Arguments Ok {A} a.
Arguments Raise {A} e.

Definition is_Raise {A} (r : result A) : Prop := ∃ e, r = Raise e.

(* ===================================================================== *)
(** ** UTF-8 *)
(* ===================================================================== *)

Module Utf8.

Definition is_surrogate (c : N) : bool := ((0xD800 <=? c) && (c <=? 0xDFFF))%N.

(** [str.encode("utf-8")] on one code point; [None] is UnicodeEncodeError
    (a lone surrogate; code points above U+10FFFF do not exist). *)
Definition encode_char (c : N) : option bytes :=
  if (c <? 0x80)%N then Some [byte_of_N c]
  else if (c <? 0x800)%N then
    Some [byte_of_N (0xC0 + c / 64); byte_of_N (0x80 + c mod 64)]
  else if (c <? 0x10000)%N then
    if is_surrogate c then None
    else Some [byte_of_N (0xE0 + c / 4096);
               byte_of_N (0x80 + (c / 64) mod 64);
               byte_of_N (0x80 + c mod 64)]
  else if (c <? 0x110000)%N then
    Some [byte_of_N (0xF0 + c / 262144);
          byte_of_N (0x80 + (c / 4096) mod 64);
          byte_of_N (0x80 + (c / 64) mod 64);
          byte_of_N (0x80 + c mod 64)]
  else None.

Fixpoint encode (s : str) : option bytes :=
  match s with
  | [] => Some []
  | c :: s' =>
      match encode_char c, encode s' with
      | Some b, Some bs => Some (b ++ bs)
      | _, _ => None
      end
  end.

(** A continuation byte [10xxxxxx]. *)
Definition is_cont (b : byte) : bool :=
  ((0x80 <=? Byte.to_N b) && (Byte.to_N b <? 0xC0))%N.

Definition cont (b : byte) : N := (Byte.to_N b - 0x80)%N.

(** [bytes.decode("utf-8")], strict: overlong forms, surrogates, code
    points above U+10FFFF, stray continuation bytes and truncated
    sequences are rejected ([None] is UnicodeDecodeError). *)
Fixpoint decode (bs : bytes) : option str :=
  match bs with
  | [] => Some []
  | b0 :: r0 =>
      let n0 := Byte.to_N b0 in
      if (n0 <? 0x80)%N then cons n0 <$> decode r0
      else if (n0 <? 0xC2)%N then None
      else if (n0 <? 0xE0)%N then
        match r0 with
        | b1 :: r1 =>
            if is_cont b1
            then cons ((n0 - 0xC0) * 64 + cont b1)%N <$> decode r1
            else None
        | _ => None
        end
      else if (n0 <? 0xF0)%N then
        match r0 with
        | b1 :: b2 :: r2 =>
            let c := ((n0 - 0xE0) * 4096 + cont b1 * 64 + cont b2)%N in
            if is_cont b1 && is_cont b2 && (0x800 <=? c)%N
               && negb (is_surrogate c)
            then cons c <$> decode r2
            else None
        | _ => None
        end
      else if (n0 <? 0xF5)%N then
        match r0 with
        | b1 :: b2 :: b3 :: r3 =>
            let c := ((n0 - 0xF0) * 262144 + cont b1 * 4096
                      + cont b2 * 64 + cont b3)%N in
            if is_cont b1 && is_cont b2 && is_cont b3
               && (0x10000 <=? c)%N && (c <? 0x110000)%N
            then cons c <$> decode r3
            else None
        | _ => None
        end
      else None
  end.

(** A Unicode scalar value: a code point that is not a surrogate.  These
    are the characters [str.encode("utf-8")] accepts. *)
Definition scalar (c : N) : Prop := (c < 0x110000)%N ∧ is_surrogate c = false.

End Utf8.

(* ===================================================================== *)
(** ** The record codec ([pollen.format]) *)
(* ===================================================================== *)

(** The byte order of the header fields.  The codec is defined for both;
    every statement below holds for either choice. *)
Inductive byte_order : Type := LittleEndian | BigEndian.

Definition result_bind {A B} (r : result A) (k : A → result B) : result B :=
  match r with
  | Ok a => k a
  | Raise e => Raise e
  end.

Definition of_option {A} (e : exn) (o : option A) : result A :=
  match o with
  | Some a => Ok a
  | None => Raise e
  end.

Notation "'let?' x ':=' r 'in' k" := (result_bind r (fun x => k))
  (at level 10, x binder, r at level 100, k at level 200).

Module format.
Section codec.
Variable order : byte_order.

(** Modelled from the spec: [HEADER_SIZE] of [pollen/format.py], which is not
    among the sources; "a fixed-size header of exactly HEADER_SIZE bytes
    (12 bytes: 4 per field)". *)
Definition HEADER_SIZE : Z := 12.

(** A header field fits "in 32 bits unsigned". *)
Definition fits_u32 (n : Z) : bool := (0 <=? n) && (n <? 2 ^ 32).

(** The [n] low-order bytes of [z], least significant first. *)
Fixpoint le_bytes (n : nat) (z : Z) : bytes :=
  match n with
  | O => []
  | S n' => byte_of_N (Z.to_N (z mod 256)) :: le_bytes n' (z / 256)
  end.

Fixpoint le_value (bs : bytes) : Z :=
  match bs with
  | [] => 0
  | b :: bs' => Z.of_N (Byte.to_N b) + 256 * le_value bs'
  end.

Definition pack_u32 (n : Z) : bytes :=
  match order with
  | LittleEndian => le_bytes 4 n
  | BigEndian => rev (le_bytes 4 n)
  end.

Definition unpack_u32 (bs : bytes) : Z :=
  match order with
  | LittleEndian => le_value bs
  | BigEndian => le_value (rev bs)
  end.

(** Modelled from the spec: [encode_header] of [pollen/format.py], which is
    not among the sources; "serializes the three fields as three fixed-width
    unsigned 32-bit integers in a single consistent byte order ... Fails with
    a RangeError if any input does not fit in 32 bits unsigned". *)
Definition encode_header (timestamp key_size value_size : Z) : result bytes :=
  if fits_u32 timestamp && fits_u32 key_size && fits_u32 value_size
  then Ok (pack_u32 timestamp ++ pack_u32 key_size ++ pack_u32 value_size)
  else Raise RangeError.

(** Modelled from the spec: [decode_header] of [pollen/format.py], which is
    not among the sources; "requires the input to be exactly HEADER_SIZE
    bytes.  Fails with a MalformedInputError on wrong length". *)
Definition decode_header (data : bytes) : result (Z * Z * Z) :=
  if len data =? HEADER_SIZE
  then Ok (unpack_u32 (take 4 data),
           unpack_u32 (take 4 (drop 4 data)),
           unpack_u32 (drop 8 data))
  else Raise MalformedInputError.

(** Modelled from the spec: [encode_kv] of [pollen/format.py], which is not
    among the sources; "computes key_size = len(key_bytes), value_size =
    len(value_bytes) using UTF-8 byte length, builds header via
    encode_header, concatenates header + key bytes + value bytes, and
    returns both the concatenated buffer and its total length". *)
Definition encode_kv (timestamp : Z) (key value : str) : result (Z * bytes) :=
  let? key_bytes := of_option EncodingError (Utf8.encode key) in
  let? value_bytes := of_option EncodingError (Utf8.encode value) in
  let key_size := len key_bytes in
  let value_size := len value_bytes in
  let? header := encode_header timestamp key_size value_size in
  Ok (HEADER_SIZE + key_size + value_size, header ++ key_bytes ++ value_bytes).

(** Modelled from the spec: [decode_kv] of [pollen/format.py], which is not
    among the sources; "decodes the header to learn key_size/value_size, then
    slices the remaining bytes into key and value, decoding both as UTF-8.
    Fails with MalformedInputError if the buffer is shorter than
    HEADER_SIZE + key_size + value_size, or EncodingError if key/value bytes
    are not valid UTF-8". *)
Definition decode_kv (data : bytes) : result (Z * str * str) :=
  let? '(timestamp, key_size, value_size) :=
    decode_header (take (Z.to_nat HEADER_SIZE) data) in
  if len data <? HEADER_SIZE + key_size + value_size
  then Raise MalformedInputError
  else
    let payload := drop (Z.to_nat HEADER_SIZE) data in
    let key_bytes := take (Z.to_nat key_size) payload in
    let value_bytes :=
      take (Z.to_nat value_size) (drop (Z.to_nat key_size) payload) in
    let? key := of_option EncodingError (Utf8.decode key_bytes) in
    let? value := of_option EncodingError (Utf8.decode value_bytes) in
    Ok (timestamp, key, value).

End codec.
End format.

(* ===================================================================== *)
(** ** The storage engine ([pollen/disk_store.py]) *)
(* ===================================================================== *)

(** Computations over a mutable object of type [St] that may raise.  The
    state after a raise is the state at the raise: Python does not roll
    back the mutations made before an exception. *)
Definition M (St A : Type) : Type := St → result A * St.

Definition ret {St A} (a : A) : M St A := fun s => (Ok a, s).

Definition raise {St A} (e : exn) : M St A := fun s => (Raise e, s).

Definition bind {St A B} (m : M St A) (k : A → M St B) : M St B :=
  fun s =>
    match m s with
    | (Ok a, s') => k a s'
    | (Raise e, s') => (Raise e, s')
    end.

Definition gets {St A} (f : St → A) : M St A := fun s => (Ok (f s), s).

Definition modify {St} (f : St → St) : M St unit := fun s => (Ok tt, f s).

Definition lift {St A} (r : result A) : M St A := fun s => (r, s).

Declare Scope py_scope.
Delimit Scope py_scope with py.
Notation "'let!' x ':=' m 'in' k" := (bind m (fun x => k))
  (at level 10, x binder, m at level 100, k at level 200) : py_scope.
Notation "m ;; k" := (bind m (fun _ => k))
  (at level 100, k at level 200, right associativity) : py_scope.
Bind Scope py_scope with M.
Local Open Scope py_scope.

(** What the operating system does to one call of [_write]: nothing
    unusual, or a failure of one of its three steps.  [WriteFault n]: the
    write raised after [n] bytes of the record had reached the file.
    [SyncFault]: [write] and [flush] returned, so the whole record is in
    the file, and [os.fsync] raised. *)
Inductive io_fault : Type :=
| NoFault
| WriteFault (n : nat)
| FlushFault
| SyncFault.

Definition inspect {A : Type} (x : A) : {y : A | x = y} := exist _ x eq_refl.

Module disk_store.
Section engine.
Variable order : byte_order.

Abbreviation HEADER_SIZE := format.HEADER_SIZE.
Abbreviation decode_header := (format.decode_header order).
Abbreviation decode_kv := (format.decode_kv order).
Abbreviation encode_kv := (format.encode_kv order).

Record KeyEntry : Type := mkKeyEntry {
  timestamp : Z;
  position : Z;
  size : Z
}.

(** A binary file object.  [contents] are the bytes of the file on disk
    (the handle is write-through: what [write] accepts is in the file),
    [offset] is the stream position used by [read], and in append mode
    every write goes to the end of the file whatever the offset is.

    The write buffer of the handle is not a component of this record.  The
    record is exact whenever the buffer is empty: after every [_write]
    that returned, and after one whose [os.fsync] raised.  After a failed
    [write] or [flush] the handle of Python may still hold bytes of the
    record, which it delivers at its next flush, seek or close: the
    statements that range over faults of these two kinds are about
    [key_dir], [write_position] and the bytes that were in the file before
    the call, none of which the buffer touches, and the statements about
    what is read after a failure are made for a failed [os.fsync]. *)
Record file_object : Type := mkFile {
  contents : bytes;
  offset : Z;
  closed : bool
}.

Definition file_write (data : bytes) (fault : io_fault) : M file_object unit :=
  fun f =>
    if closed f then (Raise ValueError, f)
    else match fault with
         | WriteFault n =>
             (Raise OSError,
              mkFile (contents f ++ take n data) (offset f) false)
         | _ =>
             (Ok tt,
              mkFile (contents f ++ data) (len (contents f ++ data)) false)
         end.

Definition file_flush (fault : io_fault) : M file_object unit :=
  fun f =>
    if closed f then (Raise ValueError, f)
    else match fault with
         | FlushFault => (Raise OSError, f)
         | _ => (Ok tt, f)
         end.

(** [os.fsync(f.fileno())]; [fileno] of a closed file raises ValueError. *)
Definition os_fsync (fault : io_fault) : M file_object unit :=
  fun f =>
    if closed f then (Raise ValueError, f)
    else match fault with
         | SyncFault => (Raise OSError, f)
         | _ => (Ok tt, f)
         end.

Definition file_seek (pos : Z) : M file_object unit :=
  fun f =>
    if closed f then (Raise ValueError, f)
    else if pos <? 0 then (Raise OSError, f)
    else (Ok tt, mkFile (contents f) pos false).

(** [f.read(n)]: at most [n] bytes from the offset, fewer at end of file;
    a negative [n] is [read(-1)], all the bytes that are left (the sizes the
    engine passes are never negative). *)
Definition file_read (n : Z) : M file_object bytes :=
  fun f =>
    if closed f then (Raise ValueError, f)
    else
      let available := drop (Z.to_nat (offset f)) (contents f) in
      let data := if n <? 0 then available else take (Z.to_nat n) available in
      (Ok data, mkFile (contents f) (offset f + len data) false).

Definition file_close : M file_object unit :=
  fun f => (Ok tt, mkFile (contents f) (offset f) true).

(** The engine object: [self.key_dir], [self.write_position], [self.file].
    The file system is the one path the engine is opened on. *)
Record DiskStorage : Type := mkDiskStorage {
  key_dir : gmap str KeyEntry;
  write_position : Z;
  file : file_object
}.

Definition on_file {A} (m : M file_object A) : M DiskStorage A :=
  fun self =>
    let (r, f) := m (file self) in
    (r, mkDiskStorage (key_dir self) (write_position self) f).

Definition set_key_dir (key : str) (entry : KeyEntry) : M DiskStorage unit :=
  modify (fun self =>
    mkDiskStorage (<[key := entry]> (key_dir self)) (write_position self)
                  (file self)).

Definition del_key_dir (key : str) : M DiskStorage unit :=
  modify (fun self =>
    mkDiskStorage (delete key (key_dir self)) (write_position self)
                  (file self)).

Definition advance_write_position (n : Z) : M DiskStorage unit :=
  modify (fun self =>
    mkDiskStorage (key_dir self) (write_position self + n) (file self)).

(** The sequential reader of [_init_key_dir] ([open(file_name, "rb")]),
    as the bytes that remain after its cursor: [f.read(n)] and
    [f.seek(n, 1)].  A read at the end returns fewer bytes than asked, a
    relative seek past the end is not an error, and the next read then
    returns nothing.  The sizes come from [decode_header] and are never
    negative. *)
Definition f_read (n : Z) (rest : bytes) : bytes * bytes :=
  if n <? 0 then (rest, [])
  else (take (Z.to_nat n) rest, drop (Z.to_nat n) rest).

Definition f_seek_cur (n : Z) (rest : bytes) : bytes := drop (Z.to_nat n) rest.

(** The [while header_bytes := f.read(HEADER_SIZE)] loop of
    [_init_key_dir], over the unread bytes [rest], the
    key directory [kd] and the write position [wp] built so far.  Every
    turn consumes a whole header, so the loop ends. *)
Equations? _init_key_dir_loop (rest : bytes) (kd : gmap str KeyEntry) (wp : Z)
  : result (gmap str KeyEntry * Z) by wf (length rest) lt :=
_init_key_dir_loop rest kd wp with inspect (f_read HEADER_SIZE rest) := {
  | exist _ (pair nil _) _ => Ok (kd, wp)
  | exist _ (pair header_bytes rest1) Hread
      with inspect (decode_header header_bytes) := {
      | exist _ (Raise e) _ => Raise e
      | exist _ (Ok (pair (pair ts key_size) value_size)) Hdecode =>
          let key_bytes := (f_read key_size rest1).1 in
          let rest3 := f_seek_cur value_size (f_read key_size rest1).2 in
          match Utf8.decode key_bytes with
          | None => Raise EncodingError
          | Some key =>
              let total_size := HEADER_SIZE + key_size + value_size in
              let kv := mkKeyEntry ts wp total_size in
              _init_key_dir_loop rest3 (<[key := kv]> kd) (wp + total_size)
          end } }.
Proof.
  subst rest3. unfold format.decode_header in Hdecode.
  destruct (len (b :: l) =? HEADER_SIZE) eqn:Hlen; [|done].
  apply Z.eqb_eq in Hlen. rewrite <- H0 in Hlen. unfold len in Hlen.
  rewrite length_take in Hlen.
  change (Z.to_nat HEADER_SIZE) with 12%nat in *.
  change HEADER_SIZE with 12 in Hlen.
  unfold f_seek_cur, f_read. destruct (key_size <? 0); simpl;
    rewrite ?drop_nil, ?length_drop; simpl; lia.
Qed.

Definition _init_key_dir (data : bytes) (kd : gmap str KeyEntry) (wp : Z)
  : result (gmap str KeyEntry * Z) :=
  _init_key_dir_loop data kd wp.

(** [DiskStorage(file_name)].  [disk] is the file at [file_name] ([None]
    when it does not exist); [openable] tells whether opening it for append
    succeeds.  Mode "a+b" creates a missing file. *)
Definition __init__ (disk : option bytes) (openable : bool)
  : result DiskStorage :=
  let? '(kd, wp) :=
    match disk with
    | Some data => _init_key_dir data ∅ 0
    | None => Ok (∅, 0)
    end in
  if openable
  then let data := default [] disk in
       Ok (mkDiskStorage kd wp (mkFile data (len data) false))
  else Raise ValueError.

Definition _write (data : bytes) (fault : io_fault) : M DiskStorage unit :=
  on_file (file_write data fault) ;;
  on_file (file_flush fault) ;;
  on_file (os_fsync fault).

(** [now] is the reading of the clock, [int(time.time())]. *)
Definition set (now : Z) (key value : str) (fault : io_fault)
  : M DiskStorage unit :=
  let ts := now in
  let! '(size, data) := lift (encode_kv ts key value) in
  _write data fault ;;
  let! wp := gets write_position in
  set_key_dir key (mkKeyEntry ts wp size) ;;
  advance_write_position size.

Definition get (key : str) : M DiskStorage str :=
  let! entry := gets (fun self => key_dir self !! key) in
  match entry with
  | None => ret []
  | Some entry =>
      on_file (file_seek (position entry)) ;;
      let! data := on_file (file_read (size entry)) in
      let! '(ts, key, value) := lift (decode_kv data) in
      ret value
  end.

Definition remove (now : Z) (key : str) (fault : io_fault)
  : M DiskStorage unit :=
  let! present := gets (fun self => bool_decide (is_Some (key_dir self !! key))) in
  if present : bool
  then set now key [] fault ;; del_key_dir key
  else ret tt.

Definition close (fault : io_fault) : M DiskStorage unit :=
  on_file (file_flush fault) ;;
  on_file (os_fsync fault) ;;
  on_file file_close.

Definition __setitem__ (now : Z) (key value : str) (fault : io_fault)
  : M DiskStorage unit :=
  set now key value fault.

Definition __getitem__ (item : str) : M DiskStorage str := get item.

(** [list(self.key_dir.keys())]; the order of the keys is not modelled. *)
Definition list : M DiskStorage (list str) :=
  gets (fun self => (map_to_list (key_dir self)).*1).

End engine.
End disk_store.

(* ===================================================================== *)
(** ** Vocabulary of the statements *)
(* ===================================================================== *)

(** The UTF-8 byte length of a string. *)
Definition byte_length (s : str) : Z :=
  match Utf8.encode s with
  | Some b => len b
  | None => 0
  end.

(** A Python [str] that [encode("utf-8")] accepts. *)
Definition encodable (s : str) : Prop := Forall Utf8.scalar s.

(** The triples [encode_kv] is meant for: every header field fits. *)
Definition valid_record (timestamp : Z) (key value : str) : Prop :=
  0 ≤ timestamp < 2 ^ 32 ∧ encodable key ∧ encodable value
  ∧ byte_length key < 2 ^ 32 ∧ byte_length value < 2 ^ 32.

Section vocabulary.
Variable order : byte_order.
Import disk_store.

(** A log made of whole records, each one written by [encode_kv]. *)
Inductive wf_log : bytes → Prop :=
| wf_log_nil : wf_log []
| wf_log_record ts key value sz data rest :
    format.encode_kv order ts key value = Ok (sz, data) →
    wf_log rest →
    wf_log (data ++ rest).

(** The handle is open and the write position is the length of the file. *)
Definition in_sync (self : DiskStorage) : Prop :=
  closed (file self) = false
  ∧ write_position self = len (contents (file self)).

(** An engine in its Ready state over a log of whole records: what
    [__init__] gives on a new path, and what it gives on a log that
    this engine wrote. *)
Definition ready (self : DiskStorage) : Prop :=
  in_sync self ∧ wf_log (contents (file self)).

(** Every indexed record ends at or before the write position. *)
Definition entries_within (self : DiskStorage) : Prop :=
  ∀ k e, key_dir self !! k = Some e →
         position e + size e ≤ write_position self.

(** The calls a client can make on an engine, each with what the
    environment contributes to it (the clock, the I/O fault). *)
Inductive call : Type :=
| CallSet (now : Z) (key value : str) (fault : io_fault)
| CallGet (key : str)
| CallRemove (now : Z) (key : str) (fault : io_fault)
| CallList
| CallClose (fault : io_fault).

(** The engine after a call, whether the call returned or raised. *)
Definition step (c : call) (self : DiskStorage) : DiskStorage :=
  match c with
  | CallSet now key value fault => (set order now key value fault self).2
  | CallGet key => (get order key self).2
  | CallRemove now key fault => (remove order now key fault self).2
  | CallList => (disk_store.list self).2
  | CallClose fault => (close fault self).2
  end.

Definition run (calls : Datatypes.list call) (self : DiskStorage)
  : DiskStorage :=
  fold_left (fun self c => step c self) calls self.

(** A call made while the disk works, other than [close]. *)
Definition fault_free (c : call) : Prop :=
  match c with
  | CallSet _ _ _ fault | CallRemove _ _ fault => fault = NoFault
  | CallClose _ => False
  | CallGet _ | CallList => True
  end.

Definition sets_key (key : str) (c : call) : Prop :=
  match c with
  | CallSet _ key' _ _ => key' = key
  | _ => False
  end.

(** A log whose last record is cut short: its header declares a key of 1
    byte and a value of 5 bytes, and only 2 bytes of the value are there. *)
Definition truncated_log : bytes :=
  match format.encode_header order 0 1 5 with
  | Ok header => header ++ ["k"; "a"; "b"]%byte
  | Raise _ => []
  end.

End vocabulary.

(** The Python [str] of an ASCII literal. *)
Definition py (s : string) : str := N_of_ascii <$> list_ascii_of_string s.

(** A new engine: [DiskStorage(path)] on a path that does not exist. *)
Definition new_engine : disk_store.DiskStorage :=
  disk_store.mkDiskStorage ∅ 0 (disk_store.mkFile [] 0 false).

(** *** The store as a dictionary *)

(** One record of the log: timestamp, key, value. *)
Abbreviation record := (Z * str * str)%type.

Definition record_key (r : record) : str := r.1.2.

(** The dictionary a sequence of records stands for: the last value
    written for each key. *)
Definition written (m : gmap str str) (rs : Datatypes.list record)
  : gmap str str :=
  fold_left (fun m r => <[record_key r := r.2]> m) rs m.

(** What a dictionary answers for a key: its value, or the empty string. *)
Definition value_in (m : gmap str str) (k : str) : str := default [] (m !! k).

Section history.
Variable order : byte_order.
Import disk_store.

(** The log that holds exactly the records [rs], in this order. *)
Inductive encodes : Datatypes.list record → bytes → Prop :=
| encodes_nil : encodes [] []
| encodes_cons ts key value sz data rs log :
    format.encode_kv order ts key value = Ok (sz, data) →
    encodes rs log →
    encodes ((ts, key, value) :: rs) (data ++ log).

(** The log that [set] writes for the records [rs], when each of them
    encodes. *)
Fixpoint encode_log (rs : Datatypes.list record) : option bytes :=
  match rs with
  | [] => Some []
  | (ts, key, value) :: rs' =>
      match format.encode_kv order ts key value, encode_log rs' with
      | Ok (_, data), Some log => Some (data ++ log)
      | _, _ => None
      end
  end.

(** The entry [e] locates, in the file [c], a whole record of key [k] and
    value [v]. *)
Definition located (c : bytes) (k : str) (e : KeyEntry) (v : str) : Prop :=
  ∃ data pre post,
    format.encode_kv order (timestamp e) k v = Ok (size e, data)
    ∧ c = pre ++ data ++ post
    ∧ position e = len pre.

(** The key directory [kd] over the file [c] answers as the dictionary
    [m]: an indexed key locates a record holding the value of [m], and a
    key that is not indexed has the empty string in [m]. *)
Definition answers (c : bytes) (m : gmap str str) (kd : gmap str KeyEntry)
  : Prop :=
  ∀ k, match kd !! k with
       | Some e => located c k e (value_in m k)
       | None => value_in m k = []
       end.

(** An open engine, in sync with a log of the records [rs], whose key
    directory answers as the dictionary of [rs]. *)
Definition represents (self : DiskStorage) (rs : Datatypes.list record)
  : Prop :=
  in_sync self
  ∧ encodes rs (contents (file self))
  ∧ answers (contents (file self)) (written ∅ rs) (key_dir self).

(** [close()] and a fresh [DiskStorage(path)] on the same file. *)
Definition reopen (self : DiskStorage) : result DiskStorage :=
  match close NoFault self with
  | (Ok _, closed_self) =>
      disk_store.__init__ order (Some (contents (file closed_self))) true
  | (Raise e, _) => Raise e
  end.

(** A session: calls on the engine, and reopens of its file. *)
Inductive event : Type :=
| Call (c : call)
| Reopen.

(** A call as the client sees it end: it returned (its value left out),
    or it raised. *)
Definition call_outcome (c : call) (self : DiskStorage)
  : result unit * DiskStorage :=
  match c with
  | CallSet now key value fault => set order now key value fault self
  | CallGet key =>
      match get order key self with
      | (Ok _, self') => (Ok tt, self')
      | (Raise e, self') => (Raise e, self')
      end
  | CallRemove now key fault => remove order now key fault self
  | CallList =>
      match disk_store.list self with
      | (Ok _, self') => (Ok tt, self')
      | (Raise e, self') => (Raise e, self')
      end
  | CallClose fault => close fault self
  end.

(** A session played to its end: the engine after the last event, or the
    first exception that a call or a reopen raised. *)
Fixpoint play (events : Datatypes.list event) (self : DiskStorage)
  : result DiskStorage :=
  match events with
  | [] => Ok self
  | Call c :: events' =>
      match call_outcome c self with
      | (Ok _, self') => play events' self'
      | (Raise e, _) => Raise e
      end
  | Reopen :: events' =>
      match reopen self with
      | Ok self' => play events' self'
      | Raise e => Raise e
      end
  end.

(** What a Python [dict] with the same calls would hold, [remove] being
    the assignment of the empty string. *)
Definition dict_step (m : gmap str str) (ev : event) : gmap str str :=
  match ev with
  | Call (CallSet _ key value _) => <[key := value]> m
  | Call (CallRemove _ key _) => <[key := []]> m
  | _ => m
  end.

Definition dict_after (events : Datatypes.list event) : gmap str str :=
  fold_left dict_step events ∅.

(** The disk works and every record fits the header. *)
Definition event_ok (ev : event) : Prop :=
  match ev with
  | Call (CallSet now key value fault) =>
      fault = NoFault ∧ valid_record now key value
  | Call (CallRemove now key fault) =>
      fault = NoFault ∧ valid_record now key []
  | Call (CallClose _) => False
  | Call (CallGet _) | Call CallList | Reopen => True
  end.

(** A [set] or [remove] whose record reached the file and whose
    [os.fsync] raised. *)
Definition sync_fails (c : call) : Prop :=
  match c with
  | CallSet _ _ _ fault | CallRemove _ _ fault => fault = SyncFault
  | _ => False
  end.

End history.

(** The calls of [test_list], with a reopen in the middle and one at the
    end. *)
Definition list_session : Datatypes.list event :=
  [Call (CallSet 7 (py "alpha") (py "xyz") NoFault);
   Call (CallSet 8 (py "beta") (py "xyz") NoFault);
   Call (CallSet 9 (py "alpha") (py "foo") NoFault);
   Reopen;
   Call (CallRemove 10 (py "alpha") NoFault);
   Call (CallGet (py "beta"));
   Reopen].

(** A session on two keys: both are set, the file is reopened, one key is
    read and overwritten, the other is removed. *)
Definition name_session : Datatypes.list event :=
  [Call (CallSet 7 (py "name") (py "jojo") NoFault);
   Call (CallSet 8 (py "other") (py "x") NoFault);
   Reopen;
   Call (CallGet (py "name"));
   Call (CallSet 9 (py "name") (py "dodo") NoFault);
   Call (CallRemove 10 (py "other") NoFault);
   Call CallList].

(** The little-endian log of [set("name", "jojo")] at time 7. *)
Definition name_log : bytes :=
  [x07; x00; x00; x00; x04; x00; x00; x00; x04; x00; x00; x00;
   "n"; "a"; "m"; "e"; "j"; "o"; "j"; "o"]%byte.

(* ===================================================================== *)
(** ** The shell ([pollen/__main__.py]) *)
(* ===================================================================== *)

Module __main__.

(** [str.isspace] on one character: the white space of Unicode, which is
    what [str.split()] splits on. *)
Definition isspace (c : N) : bool :=
  ((0x09 <=? c) && (c <=? 0x0D) || (0x1C <=? c) && (c <=? 0x20)
   || (c =? 0x85) || (c =? 0xA0) || (c =? 0x1680)
   || (0x2000 <=? c) && (c <=? 0x200A)
   || (c =? 0x2028) || (c =? 0x2029) || (c =? 0x202F) || (c =? 0x205F)
   || (c =? 0x3000))%N.

(** [s.split()], with the word being read in [word]: the maximal runs of
    characters that are not white space, in order. *)
Fixpoint split_from (word s : str) : Datatypes.list str :=
  match s with
  | [] => match word with [] => [] | _ => [word] end
  | c :: s' =>
      if isspace c
      then match word with
           | [] => split_from [] s'
           | _ => word :: split_from [] s'
           end
      else split_from (word ++ [c]) s'
  end.

Definition split (s : str) : Datatypes.list str := split_from [] s.

Inductive CommandResult : Type := OK | EXIT | ERROR.

(** What a command writes to the standard output. *)
Inductive printed : Type :=
| PrintKeys (keys : Datatypes.list str)   (* print(store.list()) *)
| PrintValue (value : str)                (* print(store.get(key)) *)
| PrintUnknown                            (* print("Unknown command") *)
| PrintHelp.                              (* _print_help() *)

(** The exceptions that leave [run_command]: its own [parts[0]] on a
    line without words, and whatever the store raises. *)
Inductive shell_exn : Type :=
| IndexError
| StoreError (e : exn).

Inductive outcome (A : Type) : Type :=
| Returned (a : A)
| Raised (e : shell_exn).
Arguments Returned {A} a.
Arguments Raised {A} e.

Section shell.
Variable order : byte_order.
Import disk_store.

(** One call of a store method from the shell: its exception is not
    caught, and what it did to the store before raising stays. *)
Definition call_store {A} (m : M DiskStorage A) (store : DiskStorage)
    (k : A → Datatypes.list printed)
  : outcome CommandResult * Datatypes.list printed * DiskStorage :=
  match m store with
  | (Ok a, store') => (Returned OK, k a, store')
  | (Raise e, store') => (Raised (StoreError e), [], store')
  end.

(** [run_command(store)].  [line] is what [input("> ")] returns, [None]
    when it raises EOFError; [now] and [fault] are the clock and the disk
    during the command. *)
Definition run_command (line : option str) (now : Z) (fault : io_fault)
    (store : DiskStorage)
  : outcome CommandResult * Datatypes.list printed * DiskStorage :=
  match line with
  | None => (Returned EXIT, [], store)
  | Some [] => (Returned OK, [], store)
  | Some inp =>
      match split inp with
      | [] => (Raised IndexError, [], store)
      | command :: arguments =>
          if bool_decide (command = py "list") then
            call_store disk_store.list store (λ keys, [PrintKeys keys])
          else if bool_decide (command = py "exit") then
            (Returned EXIT, [], store)
          else if bool_decide (command = py "get") then
            match arguments with
            | [key] =>
                call_store (disk_store.get order key) store
                  (λ value, [PrintValue value])
            | _ => (Returned ERROR, [PrintHelp], store)
            end
          else if bool_decide (command = py "del") then
            match arguments with
            | [key] =>
                call_store (disk_store.remove order now key fault) store
                  (λ _, [])
            | _ => (Returned ERROR, [PrintHelp], store)
            end
          else if bool_decide (command = py "set") then
            match arguments with
            | [key; value] =>
                call_store (disk_store.set order now key value fault) store
                  (λ _, [])
            | _ => (Returned ERROR, [PrintHelp], store)
            end
          else (Returned ERROR, [PrintUnknown; PrintHelp], store)
      end
  end.

(** [repl(store)], over the lines that the standard input still holds,
    each with the clock and the disk during its command.  After the last
    line [input] raises EOFError, [run_command] returns [EXIT] and [repl]
    returns. *)
Fixpoint repl (inputs : Datatypes.list (str * Z * io_fault))
    (store : DiskStorage)
  : outcome unit * Datatypes.list printed * DiskStorage :=
  match inputs with
  | [] => (Returned tt, [], store)
  | (line, now, fault) :: inputs' =>
      match run_command (Some line) now fault store with
      | (Returned EXIT, out, store') => (Returned tt, out, store')
      | (Returned _, out, store') =>
          match repl inputs' store' with
          | (r, out', store'') => (r, out ++ out', store'')
          end
      | (Raised e, out, store') => (Raised e, out, store')
      end
  end.

End shell.

(** A word: what [split()] returns as a part. *)
Definition is_word (w : str) : Prop :=
  w ≠ [] ∧ Forall (λ c, isspace c = false) w.

(** The line that holds the given words, one space between them. *)
Fixpoint line_of (words : Datatypes.list str) : str :=
  match words with
  | [] => []
  | [w] => w
  | w :: words' => w ++ 32%N :: line_of words'
  end.

End __main__.

(* ===================================================================== *)
(** * Properties *)
(* ===================================================================== *)

(** ** Bytes and UTF-8 *)

Lemma to_N_byte_of_N (n : N) : (n < 256)%N → Byte.to_N (byte_of_N n) = n.
Proof.
  intros Hn. unfold byte_of_N. rewrite N.mod_small by exact Hn.
  destruct (Byte.of_N n) as [b|] eqn:E.
  - by apply Byte.to_of_N.
  - apply Byte.of_N_None_iff in E. lia.
Qed.

Lemma to_N_lt_256 (b : byte) : (Byte.to_N b < 256)%N.
Proof. pose proof (Byte.to_N_bounded b). lia. Qed.

Lemma byte_of_to_N (b : byte) : byte_of_N (Byte.to_N b) = b.
Proof.
  unfold byte_of_N. rewrite N.mod_small by apply to_N_lt_256.
  by rewrite Byte.of_to_N.
Qed.

Ltac Zify.zify_post_hook ::= Z.to_euclidean_division_equations.

(** Decide the comparisons on [N] that occur in the goal from the context. *)
Ltac N_cases :=
  repeat match goal with
  | |- context [(?a <? ?b)%N] => destruct (N.ltb_spec a b); try lia
  | |- context [(?a <=? ?b)%N] => destruct (N.leb_spec a b); try lia
  end.

Section Utf8Facts.
Import Utf8.

Lemma decode_1 b0 r :
  (Byte.to_N b0 < 0x80)%N →
  decode (b0 :: r) = cons (Byte.to_N b0) <$> decode r.
Proof. intros. cbn [decode]. by N_cases. Qed.

Lemma decode_2 b0 b1 r :
  (0xC2 ≤ Byte.to_N b0 < 0xE0)%N → (0x80 ≤ Byte.to_N b1 < 0xC0)%N →
  decode (b0 :: b1 :: r)
  = cons ((Byte.to_N b0 - 0xC0) * 64 + (Byte.to_N b1 - 0x80))%N <$> decode r.
Proof. intros. cbn [decode]. unfold is_cont, cont. by N_cases. Qed.

Lemma decode_3 b0 b1 b2 r c :
  (0xE0 ≤ Byte.to_N b0 < 0xF0)%N →
  (0x80 ≤ Byte.to_N b1 < 0xC0)%N → (0x80 ≤ Byte.to_N b2 < 0xC0)%N →
  c = ((Byte.to_N b0 - 0xE0) * 4096 + (Byte.to_N b1 - 0x80) * 64
       + (Byte.to_N b2 - 0x80))%N →
  (0x800 ≤ c)%N → is_surrogate c = false →
  decode (b0 :: b1 :: b2 :: r) = cons c <$> decode r.
Proof.
  intros ??? -> ? Hs. cbn [decode]. unfold is_cont, cont.
  rewrite Hs. by N_cases.
Qed.

Lemma decode_4 b0 b1 b2 b3 r c :
  (0xF0 ≤ Byte.to_N b0 < 0xF5)%N →
  (0x80 ≤ Byte.to_N b1 < 0xC0)%N → (0x80 ≤ Byte.to_N b2 < 0xC0)%N →
  (0x80 ≤ Byte.to_N b3 < 0xC0)%N →
  c = ((Byte.to_N b0 - 0xF0) * 262144 + (Byte.to_N b1 - 0x80) * 4096
       + (Byte.to_N b2 - 0x80) * 64 + (Byte.to_N b3 - 0x80))%N →
  (0x10000 ≤ c < 0x110000)%N →
  decode (b0 :: b1 :: b2 :: b3 :: r) = cons c <$> decode r.
Proof.
  intros ???? -> ?. cbn [decode]. unfold is_cont, cont. by N_cases.
Qed.

(** Decoding undoes the encoding of one code point, whatever follows. *)
Lemma decode_encode_char (c : N) (b rest : bytes) :
  encode_char c = Some b →
  decode (b ++ rest) = cons c <$> decode rest.
Proof.
  unfold encode_char.
  destruct (N.ltb_spec c 0x80); [|destruct (N.ltb_spec c 0x800);
    [|destruct (N.ltb_spec c 0x10000);
      [destruct (is_surrogate c) eqn:Hs|destruct (N.ltb_spec c 0x110000)]]];
    intros [= <-]; cbn [app].
  - rewrite decode_1; rewrite to_N_byte_of_N by lia; [done | lia].
  - rewrite decode_2; rewrite !to_N_byte_of_N by lia; [|lia..].
    do 2 f_equal. lia.
  - rewrite (decode_3 _ _ _ _ c); rewrite ?to_N_byte_of_N by lia;
      [done | try lia ..]. done.
  - rewrite (decode_4 _ _ _ _ _ c); rewrite ?to_N_byte_of_N by lia;
      [done | lia ..].
Qed.

Lemma decode_encode (s : str) (bs : bytes) :
  encode s = Some bs → decode bs = Some s.
Proof.
  revert bs. induction s as [|c s IH]; intros bs; cbn [encode].
  - by intros [= <-].
  - destruct (encode_char c) as [b|] eqn:Ec; [|done].
    destruct (encode s) as [bs'|]; [|done]. intros [= <-].
    rewrite (decode_encode_char c b bs' Ec), (IH bs' eq_refl). done.
Qed.

(** Encoding is total on strings made of Unicode scalar values. *)
Lemma encode_char_total c : scalar c → is_Some (encode_char c).
Proof.
  intros [? Hs]. unfold encode_char. rewrite Hs.
  destruct (N.ltb_spec c 0x110000); [|lia]. by repeat case_match.
Qed.

Lemma encode_total s : Forall scalar s → is_Some (encode s).
Proof.
  induction 1 as [|c s Hc _ [bs IH]]; cbn [encode]; [done|].
  destruct (encode_char_total c Hc) as [b ->]. rewrite IH. done.
Qed.

End Utf8Facts.

(** ** The record codec *)

Section CodecFacts.
Variable order : byte_order.
Import format.

Lemma fits_u32_spec n : fits_u32 n = true ↔ 0 ≤ n < 2 ^ 32.
Proof. unfold fits_u32. rewrite andb_true_iff, Z.leb_le, Z.ltb_lt. done. Qed.

Lemma le_value_nonneg bs : 0 ≤ le_value bs.
Proof. induction bs as [|b bs IH]; simpl; lia. Qed.

Lemma le_value_le_bytes_4 n : 0 ≤ n < 2 ^ 32 → le_value (le_bytes 4 n) = n.
Proof.
  intros Hn. cbn [le_bytes le_value].
  rewrite !to_N_byte_of_N by lia. lia.
Qed.

Lemma unpack_pack_u32 n : fits_u32 n = true → unpack_u32 order (pack_u32 order n) = n.
Proof.
  rewrite fits_u32_spec. intros Hn. unfold unpack_u32, pack_u32.
  destruct order; rewrite ?rev_involutive; by apply le_value_le_bytes_4.
Qed.

Lemma unpack_u32_nonneg bs : 0 ≤ unpack_u32 order bs.
Proof. unfold unpack_u32. destruct order; apply le_value_nonneg. Qed.

Lemma length_pack_u32 n : length (pack_u32 order n) = 4%nat.
Proof. unfold pack_u32. by destruct order. Qed.

Lemma encode_header_length ts ks vs data :
  encode_header order ts ks vs = Ok data → length data = 12%nat.
Proof.
  unfold encode_header. case_match; [|done]. intros [= <-].
  by rewrite !length_app, !length_pack_u32.
Qed.

(** Header round trip: the fields that were encoded are the fields read. *)
Lemma decode_encode_header ts ks vs data :
  encode_header order ts ks vs = Ok data →
  decode_header order data = Ok (ts, ks, vs).
Proof.
  intros He. pose proof (encode_header_length _ _ _ _ He) as Hlen.
  unfold decode_header, len. rewrite Hlen. cbn [Z.eqb Z.of_nat].
  change (Z.of_nat 12 =? HEADER_SIZE) with true. cbv iota.
  unfold encode_header in He.
  destruct (fits_u32 ts) eqn:Hts; [|done].
  destruct (fits_u32 ks) eqn:Hks; [|done].
  destruct (fits_u32 vs) eqn:Hvs; [|done].
  injection He as <-.
  rewrite (take_app_length' (pack_u32 order ts)) by by rewrite length_pack_u32.
  rewrite (drop_app_length' (pack_u32 order ts)) by by rewrite length_pack_u32.
  rewrite (take_app_length' (pack_u32 order ks)) by by rewrite length_pack_u32.
  rewrite (app_assoc (pack_u32 order ts)).
  rewrite drop_app_length' by by rewrite length_app, !length_pack_u32.
  by rewrite !unpack_pack_u32.
Qed.

Lemma decode_header_nonneg data ts ks vs :
  decode_header order data = Ok (ts, ks, vs) → 0 ≤ ts ∧ 0 ≤ ks ∧ 0 ≤ vs.
Proof.
  unfold decode_header. case_match; [|done]. intros [= <- <- <-].
  auto using unpack_u32_nonneg.
Qed.

(** What a successful [encode_kv] returned. *)
Lemma encode_kv_Ok ts key value sz data :
  encode_kv order ts key value = Ok (sz, data) →
  ∃ header key_bytes value_bytes,
    Utf8.encode key = Some key_bytes
    ∧ Utf8.encode value = Some value_bytes
    ∧ encode_header order ts (len key_bytes) (len value_bytes) = Ok header
    ∧ data = header ++ key_bytes ++ value_bytes
    ∧ sz = HEADER_SIZE + len key_bytes + len value_bytes.
Proof.
  unfold encode_kv.
  destruct (Utf8.encode key) as [kb|]; [|done].
  destruct (Utf8.encode value) as [vb|]; [|done]. cbn.
  destruct (encode_header order ts (len kb) (len vb)) as [h|] eqn:Hh; [|done].
  cbn. intros [= <- <-]. by exists h, kb, vb.
Qed.

Lemma encode_kv_size ts key value sz data :
  encode_kv order ts key value = Ok (sz, data) →
  len data = sz ∧ HEADER_SIZE ≤ sz
  ∧ sz = HEADER_SIZE + byte_length key + byte_length value.
Proof.
  intros (h & kb & vb & Hk & Hv & Hh & -> & ->)%encode_kv_Ok.
  apply encode_header_length in Hh. unfold byte_length, len, HEADER_SIZE.
  rewrite Hk, Hv, !length_app, Hh. lia.
Qed.

(** [encode_kv] returns whenever the record is valid. *)
Lemma encode_kv_total ts key value :
  valid_record ts key value → ∃ sz data, encode_kv order ts key value = Ok (sz, data).
Proof.
  intros (Hts & Hk & Hv & Hkl & Hvl). unfold encode_kv, byte_length in *.
  destruct (encode_total key Hk) as [kb Ek].
  destruct (encode_total value Hv) as [vb Ev].
  rewrite Ek, Ev in *. cbn. unfold encode_header.
  assert (fits_u32 ts = true) as -> by by apply fits_u32_spec.
  assert (fits_u32 (len kb) = true) as ->
    by (apply fits_u32_spec; unfold len in *; lia).
  assert (fits_u32 (len vb) = true) as ->
    by (apply fits_u32_spec; unfold len in *; lia).
  cbn. eauto.
Qed.

(** [encode_kv] raises only on a record that is not valid. *)
Lemma encode_kv_Raise ts key value e :
  encode_kv order ts key value = Raise e → ¬ valid_record ts key value.
Proof.
  intros He Hvalid. destruct (encode_kv_total _ _ _ Hvalid) as (sz & data & H).
  congruence.
Qed.

(** Decoding a record followed by anything. *)
Lemma decode_kv_app ts key value sz data rest :
  encode_kv order ts key value = Ok (sz, data) →
  decode_kv order (data ++ rest) = Ok (ts, key, value).
Proof.
  intros (h & kb & vb & Hk & Hv & Hh & -> & ->)%encode_kv_Ok.
  pose proof (encode_header_length _ _ _ _ Hh) as Hlen.
  unfold decode_kv. change (Z.to_nat HEADER_SIZE) with 12%nat.
  rewrite <- !app_assoc.
  rewrite (take_app_length' h) by done.
  rewrite (decode_encode_header _ _ _ _ Hh). cbn [result_bind].
  destruct (Z.ltb_spec (len (h ++ kb ++ vb ++ rest))
              (HEADER_SIZE + len kb + len vb)) as [Hshort|_].
  { unfold len, HEADER_SIZE in Hshort. rewrite !length_app, Hlen in Hshort. lia. }
  rewrite (drop_app_length' h) by done. unfold len. rewrite !Nat2Z.id.
  rewrite (take_app_length' kb) by done.
  rewrite (drop_app_length' kb) by done.
  rewrite (take_app_length' vb) by done.
  rewrite (decode_encode _ _ Hk), (decode_encode _ _ Hv). done.
Qed.

End CodecFacts.

(** ** The storage engine: what each method computes *)

Section EngineFacts.
Variable order : byte_order.
Import disk_store.

Abbreviation encode_kv := (format.encode_kv order).
Abbreviation decode_kv := (format.decode_kv order).
Abbreviation set := (disk_store.set order).
Abbreviation get := (disk_store.get order).
Abbreviation remove := (disk_store.remove order).
Abbreviation __init__ := (disk_store.__init__ order).
Abbreviation _init_key_dir_loop := (disk_store._init_key_dir_loop order).

Ltac unfold_methods :=
  unfold disk_store.set, disk_store.get, disk_store.remove, close,
    disk_store.list, _write, on_file, set_key_dir, del_key_dir,
    advance_write_position, file_write, file_flush, os_fsync, file_seek,
    file_read, file_close, bind, lift, gets, modify, ret.

Lemma set_eval now k v fault self :
  set now k v fault self =
  match encode_kv now k v with
  | Raise e => (Raise e, self)
  | Ok (sz, data) =>
      let f := file self in
      if closed f then (Raise ValueError, self)
      else
        let written := contents f ++ data in
        match fault with
        | NoFault =>
            (Ok tt,
             mkDiskStorage
               (<[k := mkKeyEntry now (write_position self) sz]> (key_dir self))
               (write_position self + sz)
               (mkFile written (len written) false))
        | WriteFault n =>
            (Raise OSError,
             mkDiskStorage (key_dir self) (write_position self)
               (mkFile (contents f ++ take n data) (offset f) false))
        | FlushFault | SyncFault =>
            (Raise OSError,
             mkDiskStorage (key_dir self) (write_position self)
               (mkFile written (len written) false))
        end
  end.
Proof.
  destruct self as [kd wp [c o cl]]. unfold_methods.
  destruct (encode_kv now k v) as [[sz data]|e]; [|done].
  destruct cl, fault; done.
Qed.

Lemma get_eval k self :
  get k self =
  match key_dir self !! k with
  | None => (Ok [], self)
  | Some entry =>
      let f := file self in
      if closed f then (Raise ValueError, self)
      else if position entry <? 0 then (Raise OSError, self)
      else
        let available := drop (Z.to_nat (position entry)) (contents f) in
        let data := if size entry <? 0 then available
                    else take (Z.to_nat (size entry)) available in
        let self' :=
          mkDiskStorage (key_dir self) (write_position self)
            (mkFile (contents f) (position entry + len data) false) in
        match decode_kv data with
        | Ok (_, _, value) => (Ok value, self')
        | Raise e => (Raise e, self')
        end
  end.
Proof.
  destruct self as [kd wp [c o cl]]. unfold_methods. cbn.
  destruct (kd !! k) as [entry|]; [|done]. cbn.
  destruct cl; [done|]. cbn.
  destruct (position entry <? 0); [done|]. cbn.
  destruct (decode_kv _) as [[[ts k'] v]|e]; done.
Qed.

Lemma remove_eval now k fault self :
  remove now k fault self =
  match key_dir self !! k with
  | None => (Ok tt, self)
  | Some _ =>
      match set now k [] fault self with
      | (Ok _, self') =>
          (Ok tt,
           mkDiskStorage (delete k (key_dir self')) (write_position self')
             (file self'))
      | (Raise e, self') => (Raise e, self')
      end
  end.
Proof.
  unfold disk_store.remove, bind, gets, del_key_dir, modify.
  destruct (key_dir self !! k) as [entry|] eqn:Hk.
  - rewrite bool_decide_eq_true_2 by eauto.
    by destruct (set now k [] fault self) as [[[]|e] self'].
  - rewrite bool_decide_eq_false_2; [done|]. by intros [? ?].
Qed.

Lemma close_eval fault self :
  close fault self =
  let f := file self in
  if closed f then (Raise ValueError, self)
  else match fault with
       | FlushFault | SyncFault => (Raise OSError, self)
       | _ =>
           (Ok tt,
            mkDiskStorage (key_dir self) (write_position self)
              (mkFile (contents f) (offset f) true))
       end.
Proof.
  destruct self as [kd wp [c o cl]]. unfold_methods.
  destruct cl, fault; done.
Qed.

Lemma list_eval self :
  disk_store.list self = (Ok (map_to_list (key_dir self)).*1, self).
Proof. done. Qed.

(** One turn of the replay loop. *)
Lemma loop_step rest kd wp :
  _init_key_dir_loop rest kd wp =
  match f_read format.HEADER_SIZE rest with
  | ([], _) => Ok (kd, wp)
  | (header_bytes, rest1) =>
      match format.decode_header order header_bytes with
      | Raise e => Raise e
      | Ok (ts, key_size, value_size) =>
          match Utf8.decode (f_read key_size rest1).1 with
          | None => Raise EncodingError
          | Some key =>
              let total_size := format.HEADER_SIZE + key_size + value_size in
              _init_key_dir_loop
                (f_seek_cur value_size (f_read key_size rest1).2)
                (<[key := mkKeyEntry ts wp total_size]> kd)
                (wp + total_size)
          end
      end
  end.
Proof.
  funelim (disk_store._init_key_dir_loop order rest kd wp);
    change (f_read format.HEADER_SIZE rest)
      with (take (Z.to_nat format.HEADER_SIZE) rest,
            drop (Z.to_nat format.HEADER_SIZE) rest); cbv iota beta.
  all: match goal with H : take _ _ = _ |- _ => rewrite H end; try done.
  - by rewrite Hdecode.
  - by match goal with H : _ = Raise _ |- _ => rewrite H end.
Qed.

Lemma loop_nil kd wp : _init_key_dir_loop [] kd wp = Ok (kd, wp).
Proof. by rewrite loop_step. Qed.

(** Replay of one whole record: it is indexed at the current write
    position, and the cursor lands on the byte after it. *)
Lemma loop_record ts key value sz data rest kd wp :
  encode_kv ts key value = Ok (sz, data) →
  _init_key_dir_loop (data ++ rest) kd wp
  = _init_key_dir_loop rest (<[key := mkKeyEntry ts wp sz]> kd) (wp + sz).
Proof.
  intros (h & kb & vb & Hk & Hv & Hh & -> & ->)%encode_kv_Ok.
  pose proof (encode_header_length _ _ _ _ _ Hh) as Hlen.
  rewrite loop_step. unfold f_read, f_seek_cur.
  change (format.HEADER_SIZE <? 0) with false. cbv iota.
  change (Z.to_nat format.HEADER_SIZE) with 12%nat.
  rewrite <- !app_assoc.
  rewrite (take_app_length' h), (drop_app_length' h) by done.
  destruct h as [|b h]; [done|].
  rewrite (decode_encode_header _ _ _ _ _ Hh).
  destruct (Z.ltb_spec (len kb) 0) as [Hneg|_]; [unfold len in Hneg; lia|].
  cbn [fst snd]. unfold len. rewrite !Nat2Z.id.
  rewrite (take_app_length' kb), (drop_app_length' kb) by done.
  rewrite (drop_app_length' vb) by done.
  by rewrite (decode_encode _ _ Hk).
Qed.

Lemma wf_log_app log ts key value sz data :
  wf_log order log → encode_kv ts key value = Ok (sz, data) →
  wf_log order (log ++ data).
Proof.
  induction 1 as [|ts' k' v' sz' data' rest He Hrest IH]; intros Hdata.
  - cbn. rewrite <- (app_nil_r data).
    exact (wf_log_record order _ _ _ _ _ _ Hdata (wf_log_nil order)).
  - rewrite <- app_assoc. eapply wf_log_record; eauto.
Qed.

(** Replay of a log of whole records reads all of it: the cursor ends
    right after the log and the write position has advanced by its length. *)
Lemma loop_wf_log log rest kd wp :
  wf_log order log →
  ∃ kd', _init_key_dir_loop (log ++ rest) kd wp
         = _init_key_dir_loop rest kd' (wp + len log).
Proof.
  intros Hlog. revert kd wp.
  induction Hlog as [|ts k v sz data log' He Hlog' IH]; intros kd wp.
  - exists kd. cbn. by rewrite Z.add_0_r.
  - rewrite <- app_assoc, (loop_record _ _ _ _ _ _ _ _ He).
    destruct (IH (<[k := mkKeyEntry ts wp sz]> kd) (wp + sz)) as [kd' ->].
    exists kd'. f_equal. apply (encode_kv_size order) in He as [<- _].
    unfold len. rewrite length_app. lia.
Qed.

(** Replay never moves the write position back, and every entry it makes
    ends at or before the final write position -- on any file at all. *)
Lemma loop_within rest kd wp kd' wp' :
  _init_key_dir_loop rest kd wp = Ok (kd', wp') →
  (∀ k e, kd !! k = Some e → position e + size e ≤ wp) →
  wp ≤ wp' ∧ (∀ k e, kd' !! k = Some e → position e + size e ≤ wp').
Proof.
  revert kd' wp'.
  funelim (disk_store._init_key_dir_loop order rest kd wp);
    intros kd' wp' Hloop Hkd.
  - injection Hloop as <- <-. split; [lia|done].
  - pose proof (decode_header_nonneg _ _ _ _ _ Hdecode) as (_ & Hks & Hvs).
    destruct (Utf8.decode _) as [key|] eqn:Hkey; [|done].
    unfold format.HEADER_SIZE in *.
    eapply H in Hloop as [Hwp Hkd'].
    + split; [lia | exact Hkd'].
    + intros k e. rewrite lookup_insert. case_decide.
      * intros [= <-]. cbn. lia.
      * intros He%Hkd. lia.
  - done.
Qed.

(** Reading back a record that the key directory locates. *)
Lemma get_record k self e pre data post ts k' v :
  key_dir self !! k = Some e →
  closed (file self) = false →
  contents (file self) = pre ++ data ++ post →
  position e = len pre → size e = len data →
  decode_kv data = Ok (ts, k', v) →
  (get k self).1 = Ok v.
Proof.
  intros Hk Hopen Hc Hpos Hsize Hdec. rewrite get_eval, Hk. cbn zeta.
  rewrite Hopen, Hc.
  destruct (Z.ltb_spec (position e) 0); [unfold len in *; lia|].
  destruct (Z.ltb_spec (size e) 0); [unfold len in *; lia|].
  rewrite Hpos, Hsize. unfold len at 1 2. rewrite !Nat2Z.id.
  rewrite drop_app_length, take_app_length, Hdec. done.
Qed.

Lemma get_absent k self :
  key_dir self !! k = None → get k self = (Ok [], self).
Proof. intros Hk. by rewrite get_eval, Hk. Qed.

Lemma set_NoFault now k v sz data self :
  closed (file self) = false →
  encode_kv now k v = Ok (sz, data) →
  set now k v NoFault self
  = (Ok tt,
     mkDiskStorage
       (<[k := mkKeyEntry now (write_position self) sz]> (key_dir self))
       (write_position self + sz)
       (mkFile (contents (file self) ++ data)
               (len (contents (file self) ++ data)) false)).
Proof. intros Hopen He. rewrite set_eval, He. cbn zeta. by rewrite Hopen. Qed.

(** [set] on an engine in sync appends the record where the key directory
    says it is, and a [get] of the key reads that record back. *)
Lemma set_get_in_sync now k v self :
  in_sync self → valid_record now k v →
  ∃ self', set now k v NoFault self = (Ok tt, self')
           ∧ in_sync self'
           ∧ k ∈ (map_to_list (key_dir self')).*1
           ∧ (get k self').1 = Ok v.
Proof.
  intros [Hopen Hwp] (sz & data & He)%(encode_kv_total order).
  eexists. split; [by apply set_NoFault|].
  pose proof (encode_kv_size _ _ _ _ _ _ He) as (Hlen & _ & _).
  split; [|split].
  - split; [done|]. cbn. rewrite Hwp. unfold len in *. rewrite length_app. lia.
  - apply list_elem_of_fmap. eexists (k, _). split; [done|].
    apply elem_of_map_to_list. cbn. apply lookup_insert_eq.
  - eapply (get_record _ _ _ (contents (file self)) data []).
    + cbn. apply lookup_insert_eq.
    + done.
    + cbn. by rewrite app_nil_r.
    + done.
    + cbn. lia.
    + rewrite <- (app_nil_r data). by eapply decode_kv_app.
Qed.

(** A call that does not set [k] does not make [k] appear. *)
Lemma step_absent k c self :
  key_dir self !! k = None → ¬ sets_key k c →
  key_dir (step order c self) !! k = None.
Proof.
  intros Hk Hc. destruct c as [now k' v fault|k'|now k' fault| |fault];
    unfold step.
  - cbn in Hc. rewrite set_eval.
    destruct (encode_kv now k' v) as [[sz data]|]; [|done]. cbn zeta.
    destruct (closed (file self)); [done|].
    destruct fault; cbn; by rewrite ?lookup_insert_ne.
  - rewrite get_eval. destruct (key_dir self !! k'); [|done]. cbn zeta.
    repeat case_match; done.
  - rewrite remove_eval. destruct (key_dir self !! k') eqn:Hk'; [|done].
    assert (k' ≠ k) by congruence. rewrite set_eval.
    destruct (encode_kv now k' []) as [[sz data]|]; [|done]. cbn zeta.
    destruct (closed (file self)); [done|].
    destruct fault; cbn; try done.
    by rewrite lookup_delete_ne, lookup_insert_ne.
  - done.
  - rewrite close_eval. cbn zeta. repeat case_match; done.
Qed.

Lemma run_absent k calls self :
  key_dir self !! k = None → Forall (λ c, ¬ sets_key k c) calls →
  key_dir (run order calls self) !! k = None.
Proof.
  intros Hk Hcalls. revert self Hk. unfold run.
  induction Hcalls as [|c calls Hc _ IH]; intros self Hk; [done|].
  cbn [fold_left]. by apply IH, step_absent.
Qed.

(** *** Opening *)

Lemma init_new :
  __init__ None true = Ok (mkDiskStorage ∅ 0 (mkFile [] 0 false)).
Proof. done. Qed.

(** Opening a log of whole records succeeds, with the write position at
    the end of the file. *)
Lemma init_wf_log log :
  wf_log order log →
  ∃ kd, __init__ (Some log) true
        = Ok (mkDiskStorage kd (len log) (mkFile log (len log) false)).
Proof.
  intros Hlog. unfold disk_store.__init__, _init_key_dir.
  destruct (loop_wf_log log [] ∅ 0 Hlog) as [kd Hloop].
  rewrite app_nil_r in Hloop. rewrite Hloop, loop_nil. cbn. eauto.
Qed.

(** ... and the last record of the log is the entry of its key. *)
Lemma init_last_record log ts k v sz data :
  wf_log order log → encode_kv ts k v = Ok (sz, data) →
  ∃ kd, __init__ (Some (log ++ data)) true
        = Ok (mkDiskStorage (<[k := mkKeyEntry ts (len log) sz]> kd)
                (len (log ++ data))
                (mkFile (log ++ data) (len (log ++ data)) false)).
Proof.
  intros Hlog He. unfold disk_store.__init__, _init_key_dir.
  destruct (loop_wf_log log (data ++ []) ∅ 0 Hlog) as [kd Hloop].
  rewrite (loop_record _ _ _ _ _ _ _ _ He), loop_nil, app_nil_r in Hloop.
  rewrite Hloop. cbn. exists kd. do 2 f_equal.
  apply (encode_kv_size order) in He as [<- _].
  unfold len. rewrite length_app. lia.
Qed.

Lemma init_within disk openable self :
  __init__ disk openable = Ok self →
  0 ≤ write_position self ∧ entries_within self.
Proof.
  unfold disk_store.__init__, _init_key_dir, entries_within.
  destruct disk as [data|]; cbn.
  - destruct (_init_key_dir_loop data ∅ 0) as [[kd wp]|] eqn:Hloop; [|done].
    cbn. destruct openable; [|done]. intros [= <-]. cbn.
    by eapply loop_within.
  - destruct openable; [|done]. intros [= <-]. cbn. split; [lia|done].
Qed.

(** *** The invariants along a call *)

Lemma set_within now k v fault self :
  entries_within self →
  write_position self ≤ write_position (set now k v fault self).2
  ∧ entries_within (set now k v fault self).2.
Proof.
  intros Hin. rewrite set_eval. unfold entries_within in *.
  destruct (encode_kv now k v) as [[sz data]|] eqn:He; [|by split].
  cbn zeta. apply (encode_kv_size order) in He as (_ & Hsz & _).
  unfold format.HEADER_SIZE in Hsz.
  destruct (closed (file self)); [by split|].
  destruct fault; cbn; (split; [lia|]); try done.
  intros k' e. rewrite lookup_insert. case_decide.
  - intros [= <-]. cbn. lia.
  - intros He%Hin. lia.
Qed.

Lemma step_within c self :
  entries_within self →
  write_position self ≤ write_position (step order c self)
  ∧ entries_within (step order c self).
Proof.
  intros Hin. destruct c as [now k v fault|k|now k fault| |fault];
    unfold step.
  - by apply set_within.
  - rewrite get_eval. destruct (key_dir self !! k); [|by split]. cbn zeta.
    repeat case_match; by split.
  - rewrite remove_eval. destruct (key_dir self !! k); [|by split].
    destruct (set_within now k [] fault self Hin) as [Hwp Hin'].
    destruct (set now k [] fault self) as [[[]|e] self']; [|by split].
    cbn in *. split; [done|]. unfold entries_within in *. cbn. intros k' e'.
    rewrite lookup_delete. case_decide; [done|]. apply Hin'.
  - by split.
  - rewrite close_eval. cbn zeta. repeat case_match; by split.
Qed.

Lemma run_within calls self :
  entries_within self →
  write_position self ≤ write_position (run order calls self)
  ∧ entries_within (run order calls self).
Proof.
  unfold run. revert self.
  induction calls as [|c calls IH]; intros self Hin; [by split|].
  cbn [fold_left]. destruct (step_within c self Hin) as [Hwp Hin'].
  destruct (IH _ Hin') as [Hwp' Hin'']. split; [lia|done].
Qed.

Lemma run_snoc calls c self :
  run order (calls ++ [c]) self = step order c (run order calls self).
Proof. unfold run. by rewrite fold_left_app. Qed.

(** *** Engines over a log of whole records *)

Lemma ready_set now k v self :
  ready order self → valid_record now k v →
  ∃ sz data,
    encode_kv now k v = Ok (sz, data)
    ∧ set now k v NoFault self
      = (Ok tt,
         mkDiskStorage
           (<[k := mkKeyEntry now (len (contents (file self))) sz]>
              (key_dir self))
           (len (contents (file self) ++ data))
           (mkFile (contents (file self) ++ data)
                   (len (contents (file self) ++ data)) false))
    ∧ wf_log order (contents (file self) ++ data).
Proof.
  intros [[Hopen Hwp] Hlog] (sz & data & He)%(encode_kv_total order).
  exists sz, data. split; [done|]. split; [|by eapply wf_log_app].
  rewrite (set_NoFault _ _ _ _ _ _ Hopen He), Hwp. do 2 f_equal.
  apply (encode_kv_size order) in He as [<- _].
  unfold len. rewrite length_app. lia.
Qed.

(** Opening a log of whole records: the engine is ready, and the key of
    the last record reads back the value of that record. *)
Lemma init_reads_last_record log ts k v sz data :
  wf_log order log → encode_kv ts k v = Ok (sz, data) →
  ∃ self,
    __init__ (Some (log ++ data)) true = Ok self
    ∧ ready order self
    ∧ contents (file self) = log ++ data
    ∧ key_dir self !! k = Some (mkKeyEntry ts (len log) sz)
    ∧ k ∈ (map_to_list (key_dir self)).*1
    ∧ (get k self).1 = Ok v.
Proof.
  intros Hlog He.
  destruct (init_last_record log ts k v sz data Hlog He) as [kd Hinit].
  eexists. split; [exact Hinit|].
  assert (Hk : (<[k := mkKeyEntry ts (len log) sz]> kd) !! k
               = Some (mkKeyEntry ts (len log) sz)) by apply lookup_insert_eq.
  split; [|split; [done|split; [done|split]]].
  - split; [by split|]. by eapply wf_log_app.
  - apply list_elem_of_fmap. eexists (k, _). split; [done|].
    by apply elem_of_map_to_list.
  - pose proof (encode_kv_size _ _ _ _ _ _ He) as (Hlen & _ & _).
    eapply (get_record _ _ _ log data []); cbn [key_dir file contents closed];
      try done.
    + by rewrite app_nil_r.
    + rewrite <- (app_nil_r data). by eapply decode_kv_app.
Qed.

Lemma close_ready self :
  closed (file self) = false →
  close NoFault self
  = (Ok tt,
     mkDiskStorage (key_dir self) (write_position self)
       (mkFile (contents (file self)) (offset (file self)) true)).
Proof. intros Hopen. rewrite close_eval. cbn zeta. by rewrite Hopen. Qed.

(** The defect behind the listing of removed keys: [remove] leaves a
    record with an empty value in the log, and replay indexes it like any
    other record.  After a reopen the removed key reads as the empty
    string, and it is in the key directory again. *)
Lemma removed_key_after_reopen self now now' k v :
  ready order self → valid_record now k v → valid_record now' k [] →
  ∃ self1 self2 self3 self4,
    set now k v NoFault self = (Ok tt, self1)
    ∧ remove now' k NoFault self1 = (Ok tt, self2)
    ∧ key_dir self2 !! k = None
    ∧ close NoFault self2 = (Ok tt, self3)
    ∧ __init__ (Some (contents (file self3))) true = Ok self4
    ∧ (get k self4).1 = Ok []
    ∧ k ∈ (map_to_list (key_dir self4)).*1.
Proof.
  intros Hready Hv Hv'.
  destruct (ready_set now k v self Hready Hv) as (sz & data & He & Hset & Hlog).
  destruct (encode_kv_total order _ _ _ Hv') as (sz' & data' & He').
  destruct (init_reads_last_record _ _ _ _ _ _ Hlog He')
    as (self4 & Hinit & _ & _ & _ & Hin & Hget).
  eexists _, _, _, self4. split; [exact Hset|].
  split; [|split; [|split; [|split; [|split]]]].
  - rewrite remove_eval. cbn [key_dir]. rewrite lookup_insert_eq.
    rewrite (set_NoFault _ _ _ sz' data'); [reflexivity|done|done].
  - cbn. apply lookup_delete_eq.
  - by apply close_ready.
  - exact Hinit.
  - exact Hget.
  - exact Hin.
Qed.

(** *** Where ready engines come from *)

(** A ready engine stays ready through every call made while the disk
    works, whether the call returns or raises. *)
Lemma step_ready c self :
  ready order self → fault_free c → ready order (step order c self).
Proof.
  intros Hready Hc. pose proof Hready as [[Hopen Hwp] Hlog].
  destruct c as [now k v fault|k|now k fault| |fault]; unfold step;
    cbn in Hc; subst.
  - rewrite set_eval.
    destruct (encode_kv now k v) as [[sz data]|] eqn:He; [|done].
    cbn zeta. rewrite Hopen. cbn.
    pose proof (encode_kv_size _ _ _ _ _ _ He) as (Hlen & _ & _).
    split; [split; [done|]|by eapply wf_log_app]. cbn.
    rewrite Hwp. unfold len in *. rewrite length_app. lia.
  - rewrite get_eval. destruct (key_dir self !! k); [|done]. cbn zeta.
    rewrite Hopen. repeat case_match; done.
  - rewrite remove_eval. destruct (key_dir self !! k); [|done].
    rewrite set_eval.
    destruct (encode_kv now k []) as [[sz data]|] eqn:He; [|done].
    cbn zeta. rewrite Hopen. cbn.
    pose proof (encode_kv_size _ _ _ _ _ _ He) as (Hlen & _ & _).
    split; [split; [done|]|by eapply wf_log_app]. cbn.
    rewrite Hwp. unfold len in *. rewrite length_app. lia.
  - done.
  - done.
Qed.

Lemma run_ready calls self :
  ready order self → Forall fault_free calls →
  ready order (run order calls self).
Proof.
  intros Hready Hcalls. revert self Hready. unfold run.
  induction Hcalls as [|c calls Hc _ IH]; intros self Hready; [done|].
  cbn [fold_left]. by apply IH, step_ready.
Qed.

(** Closing a ready engine and opening its file again gives a ready
    engine. *)
Lemma reopen_ready self :
  ready order self →
  ∃ self2 self3,
    close NoFault self = (Ok tt, self2)
    ∧ __init__ (Some (contents (file self2))) true = Ok self3
    ∧ ready order self3.
Proof.
  intros [[Hopen Hwp] Hlog].
  destruct (init_wf_log _ Hlog) as [kd Hinit].
  eexists _, _. split; [by apply close_ready|]. split; [exact Hinit|].
  by split.
Qed.

(** The one truncation that replay does reject: a log of whole records
    followed by a non-empty tail shorter than a header. *)
Lemma short_tail_rejected log tail openable :
  wf_log order log → (0 < length tail < 12)%nat →
  __init__ (Some (log ++ tail)) openable = Raise MalformedInputError.
Proof.
  intros Hlog Htail. unfold disk_store.__init__, _init_key_dir.
  destruct (loop_wf_log log tail ∅ 0 Hlog) as [kd ->].
  rewrite loop_step. unfold f_read.
  change (format.HEADER_SIZE <? 0) with false. cbv iota.
  change (Z.to_nat format.HEADER_SIZE) with 12%nat.
  rewrite take_ge by lia. destruct tail as [|b tail]; [cbn in Htail; lia|].
  unfold format.decode_header.
  destruct (Z.eqb_spec (len (b :: tail)) format.HEADER_SIZE) as [Heq|_];
    [|done].
  unfold len, format.HEADER_SIZE in Heq. lia.
Qed.

End EngineFacts.

(* ===================================================================== *)
(** * The claims *)
(* ===================================================================== *)

Section Claims.
Variable order : byte_order.
Import disk_store.

Abbreviation encode_kv := (format.encode_kv order).
Abbreviation decode_kv := (format.decode_kv order).
Abbreviation encode_header := (format.encode_header order).
Abbreviation decode_header := (format.decode_header order).
Abbreviation set := (disk_store.set order).
Abbreviation get := (disk_store.get order).
Abbreviation remove := (disk_store.remove order).
Abbreviation __init__ := (disk_store.__init__ order).

(** C6.  For every (timestamp, key, value): when [encode_kv] returns
    (size, buffer), [decode_kv] of the buffer is (timestamp, key, value) and
    the size is HEADER_SIZE (12) plus the UTF-8 byte lengths of key and
    value; and [encode_kv] raises only when a header field does not fit 32
    bits or a string has no UTF-8 encoding. *)
Theorem encode_kv_round_trip ts key value :
  match encode_kv ts key value with
  | Ok (sz, data) =>
      decode_kv data = Ok (ts, key, value)
      ∧ sz = format.HEADER_SIZE + byte_length key + byte_length value
      ∧ format.HEADER_SIZE = 12
      ∧ len data = sz
  | Raise _ => ¬ valid_record ts key value
  end.
Proof.
  destruct (encode_kv ts key value) as [[sz data]|e] eqn:He.
  - pose proof (encode_kv_size _ _ _ _ _ _ He) as (Hlen & _ & Hsz).
    split; [|done]. rewrite <- (app_nil_r data). by eapply decode_kv_app.
  - by eapply encode_kv_Raise.
Qed.

(** C7.  [encode_header] with any of its three fields outside
    [0, 2^32 - 1] raises RangeError; and whenever it returns a header, the
    header decodes to the very fields given: nothing is wrapped or
    truncated. *)
Theorem encode_header_range ts ks vs :
  (¬ (0 ≤ ts < 2 ^ 32 ∧ 0 ≤ ks < 2 ^ 32 ∧ 0 ≤ vs < 2 ^ 32) →
   encode_header ts ks vs = Raise RangeError)
  ∧ (∀ data, encode_header ts ks vs = Ok data →
             decode_header data = Ok (ts, ks, vs)).
Proof.
  split.
  - intros Hout. unfold format.encode_header.
    destruct (format.fits_u32 ts) eqn:Hts; [|done].
    destruct (format.fits_u32 ks) eqn:Hks; [|done].
    destruct (format.fits_u32 vs) eqn:Hvs; [|done].
    apply fits_u32_spec in Hts, Hks, Hvs. tauto.
  - intros data. apply decode_encode_header.
Qed.

(** C3.  On an engine that is ready over a log of whole records,
    [set(k, v)] then [close()] return, a fresh open of the same file
    succeeds, its key directory entry for [k] has the position at which
    [set] appended the record and the size of that record, and [get(k)]
    returns [v]. *)
Theorem set_close_open_get self now k v :
  ready order self → valid_record now k v →
  ∃ self1 self2 self3 sz data,
    set now k v NoFault self = (Ok tt, self1)
    ∧ close NoFault self1 = (Ok tt, self2)
    ∧ __init__ (Some (contents (file self2))) true = Ok self3
    ∧ encode_kv now k v = Ok (sz, data)
    ∧ contents (file self3) = contents (file self) ++ data
    ∧ key_dir self3 !! k
      = Some (mkKeyEntry now (len (contents (file self))) (len data))
    ∧ (get k self3).1 = Ok v
    ∧ ready order self3.
Proof.
  intros Hready Hvalid.
  destruct (ready_set order now k v self Hready Hvalid)
    as (sz & data & He & Hset & Hlog).
  destruct Hready as [_ Hlog0].
  destruct (init_reads_last_record order _ _ _ _ _ _ Hlog0 He)
    as (self3 & Hinit & Hready3 & Hc & Hk & _ & Hget).
  pose proof (encode_kv_size _ _ _ _ _ _ He) as (Hlen & _ & _).
  eexists _, _, self3, sz, data. split; [exact Hset|].
  split; [by apply close_ready|]. rewrite Hlen. done.
Qed.

(** C5.  When a step of [set] fails (the write, the flush or the sync),
    [set] raises and the key directory and the write position are what
    they were; on an open handle and a valid record the error is the I/O
    error. *)
Theorem failed_set_keeps_index self now k v fault :
  fault ≠ NoFault →
  is_Raise (set now k v fault self).1
  ∧ key_dir (set now k v fault self).2 = key_dir self
  ∧ write_position (set now k v fault self).2 = write_position self
  ∧ (closed (file self) = false → valid_record now k v →
     (set now k v fault self).1 = Raise OSError).
Proof.
  intros Hfault. rewrite set_eval.
  destruct (encode_kv now k v) as [[sz data]|e] eqn:He.
  - cbn zeta. destruct (closed (file self)) eqn:Hclosed.
    + repeat split; try done. by eexists.
    + destruct fault; try done; (repeat split; try done; by eexists).
  - repeat split; try done; [by eexists|].
    intros _ Hvalid. by apply (encode_kv_Raise order) in He.
Qed.

(** C9.  After an open of any file and any sequence of calls, every key
    directory entry ends at or before the write position, the write
    position is not below what the open set it to, and the next call,
    whether it returns or raises, does not lower it. *)
Theorem entries_within_write_position disk openable self0 calls c :
  __init__ disk openable = Ok self0 →
  let self := run order calls self0 in
  entries_within self
  ∧ 0 ≤ write_position self0 ≤ write_position self
  ∧ write_position self ≤ write_position (step order c self)
  ∧ entries_within (step order c self).
Proof.
  intros (Hwp0 & Hin0)%init_within. cbn zeta.
  destruct (run_within order calls self0 Hin0) as [Hwp Hin].
  destruct (step_within order c _ Hin) as [Hwp' Hin'].
  repeat split; try done.
Qed.

(** C8, as amended.  After [close()] has returned: [set] raises for every
    key and value; [get(k)] and [remove(k)] raise when [k] is in the key
    directory; but [list()] returns the keys of the key directory, [get(k)]
    returns the empty string and [remove(k)] does nothing when [k] is not
    in the key directory.  None of the calls changes the engine. *)
Theorem calls_after_close self0 fault0 self :
  close fault0 self0 = (Ok tt, self) →
  (∀ now k v fault,
     is_Raise (set now k v fault self).1 ∧ (set now k v fault self).2 = self)
  ∧ (∀ k, is_Some (key_dir self !! k) →
          get k self = (Raise ValueError, self))
  ∧ (∀ now k fault, is_Some (key_dir self !! k) →
          is_Raise (remove now k fault self).1
          ∧ (remove now k fault self).2 = self)
  ∧ (∀ k, key_dir self !! k = None → get k self = (Ok [], self))
  ∧ (∀ now k fault, key_dir self !! k = None →
          remove now k fault self = (Ok tt, self))
  ∧ disk_store.list self = (Ok (map_to_list (key_dir self)).*1, self).
Proof.
  intros Hclose. assert (Hclosed : closed (file self) = true).
  { rewrite close_eval in Hclose. cbn zeta in Hclose.
    destruct (closed (file self0)); [done|].
    by destruct fault0; inversion Hclose; subst. }
  assert (Hset : ∀ now k v fault,
    is_Raise (set now k v fault self).1 ∧ (set now k v fault self).2 = self).
  { intros now k v fault. rewrite set_eval.
    destruct (encode_kv now k v) as [[sz data]|e]; [|split; [by eexists|done]].
    cbn zeta. rewrite Hclosed. split; [by eexists|done]. }
  split; [exact Hset|]. split; [|split; [|split; [|split]]].
  - intros k [e He]. rewrite get_eval, He. cbn zeta. by rewrite Hclosed.
  - intros now k fault [e He]. rewrite remove_eval, He.
    destruct (Hset now k [] fault) as [[e' Hr] Hs].
    destruct (set now k [] fault self) as [r s']. cbn in Hr, Hs. subst.
    split; [by eexists|done].
  - intros k. apply get_absent.
  - intros now k fault Hk. by rewrite remove_eval, Hk.
  - apply list_eval.
Qed.

End Claims.

(* ===================================================================== *)
(** * The claims at concrete inputs *)
(* ===================================================================== *)

(** Closes the side conditions of the instances below: validity of a
    concrete record and the state of a concrete engine. *)
Ltac concrete :=
  repeat match goal with
  | |- valid_record _ _ _ => unfold valid_record, encodable
  | |- in_sync _ => unfold in_sync
  | |- ready _ _ => unfold ready
  | |- _ ∧ _ => split
  | |- Forall _ [] => constructor
  | |- Forall _ (_ :: _) => constructor
  | |- Forall _ (py _) => vm_compute (py _)
  | |- Utf8.scalar _ => unfold Utf8.scalar
  | |- wf_log _ _ => vm_compute; constructor
  | |- (_ <= _)%Z => vm_compute; discriminate
  | |- (_ < _)%Z => vm_compute; reflexivity
  | |- (_ < _)%N => vm_compute; reflexivity
  | |- _ = _ => vm_compute; reflexivity
  end.

(** C1, at the input of the repository's own [test_remove] and
    [test_list]: a new engine, [set("name", "jojo")], [remove("name")],
    [close()], and a fresh open of the file.  [get("name")] returns the
    empty string, as the claim says; but [list()] is [["name"]]: replay
    has put the removed key back into the key directory. *)
Theorem removed_key_listed_after_reopen (order : byte_order) :
  let self1 := (disk_store.set order 7 (py "name") (py "jojo") NoFault new_engine).2 in
  let self2 := (disk_store.remove order 8 (py "name") NoFault self1).2 in
  let self3 := (disk_store.close NoFault self2).2 in
  (disk_store.list self2).1 = Ok []
  ∧ ∃ self4,
      disk_store.__init__ order (Some (disk_store.contents (disk_store.file self3))) true
      = Ok self4
      ∧ (disk_store.get order (py "name") self4).1 = Ok []
      ∧ (disk_store.list self4).1 = Ok [py "name"].
Proof.
  destruct order; cbv zeta; (split; [vm_compute; reflexivity|]);
    eexists; (split; [vm_compute; reflexivity|]);
    split; vm_compute; reflexivity.
Qed.

(** C2, at a log whose only record is cut short: the header declares a
    key of 1 byte and a value of 5 bytes, the file has 15 bytes where the
    record needs 18.  The open succeeds, with an entry of size 18 and a
    write position of 18 in a file of 15 bytes. *)
Theorem truncated_log_opens (order : byte_order) :
  len (truncated_log order) = 15
  ∧ disk_store.__init__ order (Some (truncated_log order)) true
    = Ok (disk_store.mkDiskStorage
            {[ py "k" := disk_store.mkKeyEntry 0 0 18 ]} 18
            (disk_store.mkFile (truncated_log order) 15 false)).
Proof. destruct order; split; vm_compute; reflexivity. Qed.

(** C8 as stated fails: on a closed engine that holds the key ["name"],
    [list()] returns [["name"]], [get("other")] returns the empty string
    and [remove("other")] returns, none of them with an error. *)
Lemma closed_engine_still_answers :
  let self1 :=
    (disk_store.set LittleEndian 7 (py "name") (py "jojo") NoFault new_engine).2 in
  let self2 := (disk_store.close NoFault self1).2 in
  (disk_store.close NoFault self1).1 = Ok tt
  ∧ (disk_store.list self2).1 = Ok [py "name"]
  ∧ (disk_store.get LittleEndian (py "other") self2).1 = Ok []
  ∧ (disk_store.remove LittleEndian 9 (py "other") NoFault self2).1 = Ok tt
  ∧ ¬ is_Raise (disk_store.list self2).1.
Proof.
  cbv zeta. repeat split; try (vm_compute; reflexivity).
  intros [e He]. vm_compute in He. discriminate.
Defined.

(** C7 at the three inputs of [test_bad], and a header read back. *)
Lemma encode_header_range_witness :
  format.encode_header LittleEndian (2 ^ 32) 5 5 = Raise RangeError
  ∧ format.encode_header LittleEndian 5 (2 ^ 32) 5 = Raise RangeError
  ∧ format.encode_header LittleEndian 5 5 (2 ^ 32) = Raise RangeError
  ∧ format.decode_header LittleEndian
      [x0a; x00; x00; x00; x0b; x00; x00; x00; x0c; x00; x00; x00]%byte
    = Ok (10, 11, 12).
Proof.
  split; [|split; [|split]].
  - apply (proj1 (encode_header_range LittleEndian (2 ^ 32) 5 5)). lia.
  - apply (proj1 (encode_header_range LittleEndian 5 (2 ^ 32) 5)). lia.
  - apply (proj1 (encode_header_range LittleEndian 5 5 (2 ^ 32))). lia.
  - apply (proj2 (encode_header_range LittleEndian 10 11 12)).
    vm_compute. reflexivity.
Defined.

(** C3 on a new engine: the persistence check of [test_get]. *)
Lemma set_close_open_get_witness :
  (ready LittleEndian new_engine ∧ valid_record 7 (py "name") (py "jojo"))
  ∧ ∃ self1 self2 self3 sz data,
      disk_store.set LittleEndian 7 (py "name") (py "jojo") NoFault new_engine
      = (Ok tt, self1)
      ∧ disk_store.close NoFault self1 = (Ok tt, self2)
      ∧ disk_store.__init__ LittleEndian
          (Some (disk_store.contents (disk_store.file self2))) true
        = Ok self3
      ∧ format.encode_kv LittleEndian 7 (py "name") (py "jojo") = Ok (sz, data)
      ∧ disk_store.contents (disk_store.file self3)
        = disk_store.contents (disk_store.file new_engine) ++ data
      ∧ disk_store.key_dir self3 !! py "name"
        = Some (disk_store.mkKeyEntry 7
                  (len (disk_store.contents (disk_store.file new_engine)))
                  (len data))
      ∧ (disk_store.get LittleEndian (py "name") self3).1 = Ok (py "jojo")
      ∧ ready LittleEndian self3.
Proof.
  split; [concrete|]. apply (set_close_open_get LittleEndian); concrete.
Defined.

(** C5 on a new engine, with a write that fails after 5 bytes. *)
Lemma failed_set_keeps_index_witness :
  WriteFault 5 ≠ NoFault
  ∧ is_Raise
      (disk_store.set LittleEndian 7 (py "name") (py "jojo") (WriteFault 5)
         new_engine).1
  ∧ disk_store.key_dir
      (disk_store.set LittleEndian 7 (py "name") (py "jojo") (WriteFault 5)
         new_engine).2
    = disk_store.key_dir new_engine
  ∧ disk_store.write_position
      (disk_store.set LittleEndian 7 (py "name") (py "jojo") (WriteFault 5)
         new_engine).2
    = disk_store.write_position new_engine
  ∧ (disk_store.closed (disk_store.file new_engine) = false →
     valid_record 7 (py "name") (py "jojo") →
     (disk_store.set LittleEndian 7 (py "name") (py "jojo") (WriteFault 5)
        new_engine).1
     = Raise OSError).
Proof.
  split; [discriminate|].
  apply (failed_set_keeps_index LittleEndian). discriminate.
Defined.

(** C9 on an engine opened on the truncated log. *)
Lemma entries_within_write_position_witness :
  disk_store.__init__ LittleEndian (Some (truncated_log LittleEndian)) true
  = Ok (disk_store.mkDiskStorage
          {[ py "k" := disk_store.mkKeyEntry 0 0 18 ]} 18
          (disk_store.mkFile (truncated_log LittleEndian) 15 false))
  ∧ let self0 :=
      disk_store.mkDiskStorage
        {[ py "k" := disk_store.mkKeyEntry 0 0 18 ]} 18
        (disk_store.mkFile (truncated_log LittleEndian) 15 false) in
    let self :=
      run LittleEndian
        [CallSet 7 (py "name") (py "jojo") NoFault; CallGet (py "name")]
        self0 in
    entries_within self
    ∧ 0 ≤ disk_store.write_position self0 ≤ disk_store.write_position self
    ∧ disk_store.write_position self
      ≤ disk_store.write_position
          (step LittleEndian (CallRemove 8 (py "k") SyncFault) self)
    ∧ entries_within (step LittleEndian (CallRemove 8 (py "k") SyncFault) self).
Proof.
  split; [vm_compute; reflexivity|].
  apply (entries_within_write_position LittleEndian
           (Some (truncated_log LittleEndian)) true).
  vm_compute. reflexivity.
Defined.

(** C8 as amended, on an engine that holds ["name"] and was closed. *)
Lemma calls_after_close_witness :
  let self0 :=
    (disk_store.set LittleEndian 7 (py "name") (py "jojo") NoFault new_engine).2
  in
  let self := (disk_store.close NoFault self0).2 in
  disk_store.close NoFault self0 = (Ok tt, self)
  ∧ is_Raise
      (disk_store.set LittleEndian 8 (py "other") (py "x") NoFault self).1
  ∧ disk_store.get LittleEndian (py "name") self = (Raise ValueError, self)
  ∧ is_Raise (disk_store.remove LittleEndian 8 (py "name") NoFault self).1
  ∧ disk_store.get LittleEndian (py "other") self = (Ok [], self)
  ∧ disk_store.remove LittleEndian 8 (py "other") NoFault self = (Ok tt, self)
  ∧ disk_store.list self = (Ok [py "name"], self).
Proof.
  cbv zeta. split; [vm_compute; reflexivity|].
  pose proof (calls_after_close LittleEndian
                (disk_store.set LittleEndian 7 (py "name") (py "jojo") NoFault
                   new_engine).2
                NoFault
                (disk_store.close NoFault
                   (disk_store.set LittleEndian 7 (py "name") (py "jojo")
                      NoFault new_engine).2).2
                ltac:(vm_compute; reflexivity))
    as (Hset & Hget & Hrem & Hget' & Hrem' & Hlist).
  split; [apply Hset|].
  split; [apply Hget; vm_compute; eexists; reflexivity|].
  split; [apply Hrem; vm_compute; eexists; reflexivity|].
  split; [apply Hget'; vm_compute; reflexivity|].
  split; [apply Hrem'; vm_compute; reflexivity|].
  rewrite Hlist. vm_compute. reflexivity.
Defined.

(* ===================================================================== *)
(** * Further properties of the engine *)
(* ===================================================================== *)

Section StoreFacts.
Variable order : byte_order.
Import disk_store.

Abbreviation encode_kv := (format.encode_kv order).
Abbreviation decode_kv := (format.decode_kv order).
Abbreviation set := (disk_store.set order).
Abbreviation get := (disk_store.get order).
Abbreviation remove := (disk_store.remove order).
Abbreviation __init__ := (disk_store.__init__ order).
Abbreviation _init_key_dir_loop := (disk_store._init_key_dir_loop order).
Abbreviation keys_of self := ((map_to_list (key_dir self)).*1).

(** *** Dictionaries and logs *)

Lemma written_snoc m rs r :
  written m (rs ++ [r]) = <[record_key r := r.2]> (written m rs).
Proof. unfold written. by rewrite fold_left_app. Qed.

Lemma value_in_insert m k v k' :
  value_in (<[k := v]> m) k' = if decide (k = k') then v else value_in m k'.
Proof. unfold value_in. rewrite lookup_insert. by case_decide. Qed.

Lemma value_in_empty k : value_in ∅ k = [].
Proof. done. Qed.

Lemma encodes_snoc rs log ts k v sz data :
  encodes order rs log → encode_kv ts k v = Ok (sz, data) →
  encodes order (rs ++ [(ts, k, v)]) (log ++ data).
Proof.
  induction 1 as [|ts' k' v' sz' data' rs log He Hrs IH]; intros Hdata.
  - cbn. rewrite <- (app_nil_r data).
    exact (encodes_cons order _ _ _ _ _ _ _ Hdata (encodes_nil order)).
  - rewrite <- app_assoc. cbn. eapply encodes_cons; eauto.
Qed.

Lemma encodes_wf_log rs log : encodes order rs log → wf_log order log.
Proof.
  induction 1; [apply wf_log_nil | by eapply wf_log_record].
Qed.

Lemma located_app c x k e v :
  located order c k e v → located order (c ++ x) k e v.
Proof.
  intros (data & pre & post & He & -> & Hpos).
  exists data, pre, (post ++ x). by rewrite <- !app_assoc.
Qed.

Lemma answers_app c x m kd :
  answers order c m kd → answers order (c ++ x) m kd.
Proof.
  intros Ha k. specialize (Ha k). destruct (kd !! k); [|done].
  by apply located_app.
Qed.

(** Appending a record and indexing it at its offset. *)
Lemma answers_insert c m kd ts k v sz data :
  answers order c m kd → encode_kv ts k v = Ok (sz, data) →
  answers order (c ++ data) (<[k := v]> m)
    (<[k := mkKeyEntry ts (len c) sz]> kd).
Proof.
  intros Ha He k'. rewrite lookup_insert, value_in_insert.
  case_decide; subst.
  - exists data, c, []. by rewrite app_nil_r.
  - specialize (Ha k'). destruct (kd !! k'); [|done]. by apply located_app.
Qed.

(** *** Reading through the key directory *)

(** [get] changes nothing but the stream position of the handle. *)
Lemma get_frame k self :
  ∃ o, (get k self).2
       = mkDiskStorage (key_dir self) (write_position self)
           (mkFile (contents (file self)) o (closed (file self))).
Proof.
  rewrite get_eval. destruct self as [kd wp [c o cl]]. cbn.
  destruct (kd !! k) as [e|]; [|by eexists].
  destruct cl; [by eexists|].
  destruct (position e <? 0); [by eexists|].
  destruct (decode_kv _) as [[[ts k'] v]|]; by eexists.
Qed.

(** The result of [get] does not depend on the stream position. *)
Lemma get_offset k kd wp c o o' cl :
  (get k (mkDiskStorage kd wp (mkFile c o cl))).1
  = (get k (mkDiskStorage kd wp (mkFile c o' cl))).1.
Proof.
  rewrite !get_eval. cbn. destruct (kd !! k) as [e|]; [|done].
  destruct cl; [done|]. destruct (position e <? 0); [done|].
  by destruct (decode_kv _) as [[[ts k'] v]|].
Qed.

Lemma get_located k self e v :
  key_dir self !! k = Some e → closed (file self) = false →
  located order (contents (file self)) k e v →
  (get k self).1 = Ok v.
Proof.
  intros Hk Hopen (data & pre & post & He & Hc & Hpos).
  pose proof (encode_kv_size _ _ _ _ _ _ He) as (Hlen & _ & _).
  eapply (get_record order _ _ _ pre data post); try done.
  rewrite <- (app_nil_r data). by eapply decode_kv_app.
Qed.

Lemma get_answers k self m :
  closed (file self) = false →
  answers order (contents (file self)) m (key_dir self) →
  (get k self).1 = Ok (value_in m k).
Proof.
  intros Hopen Ha. specialize (Ha k).
  destruct (key_dir self !! k) as [e|] eqn:Hk.
  - by eapply get_located.
  - by rewrite get_absent, Ha.
Qed.

(** *** Replay of a log of records *)

Lemma loop_encodes rs log :
  encodes order rs log →
  ∀ pre m kd,
    answers order pre m kd →
    ∃ kd',
      _init_key_dir_loop log kd (len pre) = Ok (kd', len (pre ++ log))
      ∧ answers order (pre ++ log) (written m rs) kd'
      ∧ ∀ k, is_Some (kd' !! k)
             ↔ is_Some (kd !! k) ∨ k ∈ record_key <$> rs.
Proof.
  induction 1 as [|ts key value sz data rs log He Hrs IH]; intros pre m kd Ha.
  - exists kd. rewrite loop_nil, app_nil_r. split; [done|]. split; [done|].
    intros k. cbn. rewrite elem_of_nil. tauto.
  - rewrite (loop_record order _ _ _ _ _ _ _ _ He).
    pose proof (encode_kv_size _ _ _ _ _ _ He) as (Hlen & _ & _).
    destruct (IH (pre ++ data) (<[key := value]> m)
                 (<[key := mkKeyEntry ts (len pre) sz]> kd))
      as (kd' & Hloop & Ha' & Hdom).
    { by apply answers_insert. }
    rewrite <- app_assoc in Hloop, Ha'.
    exists kd'. replace (len pre + sz) with (len (pre ++ data))
      by (unfold len in *; rewrite length_app; lia).
    rewrite Hloop. split; [done|]. split; [exact Ha'|].
    intros k. rewrite Hdom, lookup_insert. cbn [fmap list_fmap].
    rewrite elem_of_cons. unfold record_key at 2. cbn.
    case_decide as Hkey; subst.
    + split; intros _; [right; by left | left; eauto].
    + split; [intros [?|?]; [by left | right; by right]|].
      intros [?|[->|?]]; [by left | done | by right].
Qed.

Lemma encode_log_encodes rs log :
  encode_log order rs = Some log → encodes order rs log.
Proof.
  revert log. induction rs as [|[[ts k] v] rs IH]; intros log; cbn.
  - intros [= <-]. apply encodes_nil.
  - destruct (encode_kv ts k v) as [[sz data]|] eqn:He; [|done].
    destruct (encode_log order rs) as [log'|]; [|done]. intros [= <-].
    eapply encodes_cons; eauto.
Qed.

Lemma keys_of_spec (kd : gmap str KeyEntry) k :
  k ∈ (map_to_list kd).*1 ↔ is_Some (kd !! k).
Proof.
  rewrite list_elem_of_fmap. split.
  - intros ([k' e] & -> & Hin). apply elem_of_map_to_list in Hin. eauto.
  - intros [e He]. exists (k, e). split; [done|].
    by apply elem_of_map_to_list.
Qed.

Lemma answers_delete c m kd k :
  answers order c m kd → value_in m k = [] →
  answers order c m (delete k kd).
Proof.
  intros Ha Hk k'. rewrite lookup_delete. case_decide; subst; [done|].
  apply Ha.
Qed.

(** *** The engine as a dictionary *)

Lemma represents_new : represents order new_engine [].
Proof.
  split; [by split|]. split; [apply encodes_nil|]. by intros k.
Qed.

Lemma represents_get k self rs :
  represents order self rs →
  (get k self).1 = Ok (value_in (written ∅ rs) k)
  ∧ represents order (get k self).2 rs.
Proof.
  intros ([Hopen Hwp] & Hlog & Ha). split; [by apply get_answers|].
  destruct (get_frame k self) as [o ->]. rewrite Hopen.
  split; [by split|]. by split.
Qed.

Lemma represents_set now k v self rs :
  represents order self rs → valid_record now k v →
  ∃ self', set now k v NoFault self = (Ok tt, self')
           ∧ represents order self' (rs ++ [(now, k, v)])
           ∧ is_Some (key_dir self' !! k)
           ∧ ∀ k', k' ≠ k → key_dir self' !! k' = key_dir self !! k'.
Proof.
  intros ([Hopen Hwp] & Hlog & Ha) (sz & data & He)%(encode_kv_total order).
  pose proof (encode_kv_size _ _ _ _ _ _ He) as (Hlen & _ & _).
  eexists. split; [by apply set_NoFault|]. split; [split; [|split]|]; cbn.
  - split; [done|]. cbn. rewrite Hwp. unfold len in *.
    rewrite length_app. lia.
  - by eapply encodes_snoc.
  - rewrite written_snoc, Hwp. by apply answers_insert.
  - rewrite lookup_insert_eq. split; [by eexists|].
    intros k' Hk'. by rewrite lookup_insert_ne.
Qed.

Lemma represents_remove now k self rs :
  represents order self rs → valid_record now k [] →
  ∃ self' rs',
    remove now k NoFault self = (Ok tt, self')
    ∧ represents order self' rs'
    ∧ key_dir self' = delete k (key_dir self)
    ∧ ∀ k', value_in (written ∅ rs') k'
            = value_in (<[k := []]> (written ∅ rs)) k'.
Proof.
  intros Hrep Hvalid. rewrite remove_eval.
  destruct (key_dir self !! k) as [e|] eqn:Hk.
  - destruct (represents_set now k [] self rs Hrep Hvalid)
      as (self1 & -> & (Hsync & Hlog & Ha) & _ & Hother).
    eexists _, _. split; [done|]. split; [|split].
    + split; [exact Hsync|]. split; [exact Hlog|]. cbn.
      apply answers_delete; [exact Ha|].
      rewrite written_snoc, value_in_insert. by case_decide.
    + cbn. apply map_eq. intros k'. rewrite !lookup_delete.
      case_decide; [done|]. by apply Hother.
    + intros k'. by rewrite written_snoc.
  - exists self, rs. split; [done|]. split; [done|].
    split; [by rewrite delete_id|].
    intros k'. rewrite value_in_insert. case_decide; subst; [|done].
    destruct Hrep as (_ & _ & Ha). specialize (Ha k'). by rewrite Hk in Ha.
Qed.

Lemma represents_open rs log :
  encodes order rs log →
  ∃ self,
    __init__ (Some log) true = Ok self
    ∧ represents order self rs
    ∧ ∀ k, k ∈ keys_of self ↔ k ∈ record_key <$> rs.
Proof.
  intros Hlog. unfold disk_store.__init__, _init_key_dir.
  destruct (loop_encodes rs log Hlog [] ∅ ∅) as (kd & Hloop & Ha & Hdom).
  { by intros k. }
  change (len []) with 0 in Hloop. rewrite Hloop. cbn.
  eexists. split; [done|]. split; [split; [by split|by split]|].
  intros k. cbn. rewrite keys_of_spec, Hdom, lookup_empty.
  split; [intros [[? [=]]|?]; done | by right].
Qed.

Lemma represents_reopen self rs :
  represents order self rs →
  ∃ self', reopen order self = Ok self' ∧ represents order self' rs.
Proof.
  intros ([Hopen Hwp] & Hlog & Ha). unfold reopen.
  rewrite (close_ready self Hopen). cbn [file contents].
  destruct (represents_open rs _ Hlog) as (self' & Hinit & Hrep & _). eauto.
Qed.

(** The engine that a call leaves is the one [step] gives, whether the
    call returned or raised. *)
Lemma call_outcome_step c self :
  (call_outcome order c self).2 = step order c self.
Proof.
  destruct c as [now k v fault|k|now k fault| |fault];
    unfold call_outcome, step; try done.
  by destruct (get k self) as [[v|e] self'].
Qed.

(** A session stops at the first call that raises. *)
Lemma play_raise c events self e self' :
  call_outcome order c self = (Raise e, self') →
  play order (Call c :: events) self = Raise e.
Proof. intros Hc. cbn [play]. by rewrite Hc. Qed.

(** A session of calls that is played to its end went through the
    engines that [run] gives. *)
Lemma play_run calls self self' :
  play order (Call <$> calls) self = Ok self' → self' = run order calls self.
Proof.
  revert self. induction calls as [|c calls IH]; intros self;
    cbn [fmap list_fmap play].
  - by intros [= <-].
  - pose proof (call_outcome_step c self) as Hstep.
    destruct (call_outcome order c self) as [[[]|e] self1]; [|done].
    cbn in Hstep. subst self1. intros Hplay. by apply IH in Hplay.
Qed.

(** Opening a new path, or a file that holds the records [rs]. *)
Lemma init_represents disk rs :
  encode_log order rs = Some (default [] disk) →
  ∃ self, __init__ disk true = Ok self ∧ represents order self rs.
Proof.
  intros Hlog%encode_log_encodes. destruct disk as [log|]; cbn in Hlog.
  - destruct (represents_open rs log Hlog) as (self & Hinit & Hrep & _).
    eauto.
  - exists new_engine. split; [done|].
    inversion Hlog as [|ts k v sz data rs' log' He Hrs' Hrs Hnil].
    + apply represents_new.
    + pose proof (encode_kv_size _ _ _ _ _ _ He) as (Hlen & Hsz & _).
      apply (f_equal len) in Hnil. unfold len in *.
      rewrite length_app in Hnil. cbn in Hnil.
      unfold format.HEADER_SIZE in *. lia.
Qed.

(** A session of calls that the disk serves plays to its end, every call
    returning, and leaves an engine that answers as the dictionary of the
    calls made. *)
Lemma play_represents events :
  Forall (event_ok) events →
  ∀ self rs m,
    represents order self rs →
    (∀ k, value_in m k = value_in (written ∅ rs) k) →
    ∃ self' rs',
      play order events self = Ok self'
      ∧ represents order self' rs'
      ∧ ∀ k, value_in (fold_left dict_step events m) k
             = value_in (written ∅ rs') k.
Proof.
  induction 1 as [|ev events Hev _ IH]; intros self rs m Hrep Hm.
  { by exists self, rs. }
  destruct ev as [[now k v fault|k|now k fault| |fault]|]; cbn in Hev;
    cbn [play call_outcome fold_left dict_step].
  - destruct Hev as [-> Hvalid].
    destruct (represents_set now k v self rs Hrep Hvalid)
      as (self1 & -> & Hrep1 & _).
    apply (IH _ _ _ Hrep1). intros k'.
    rewrite written_snoc, !value_in_insert. cbn. by case_decide.
  - destruct (represents_get k self rs Hrep) as [Hget Hrep1].
    destruct (get k self) as [r self1]. cbn in Hget, Hrep1. subst r.
    by apply (IH _ rs).
  - destruct Hev as [-> Hvalid].
    destruct (represents_remove now k self rs Hrep Hvalid)
      as (self1 & rs1 & -> & Hrep1 & _ & Hrs1).
    apply (IH _ _ _ Hrep1). intros k'.
    rewrite Hrs1, !value_in_insert. by case_decide.
  - rewrite list_eval. by apply (IH _ rs).
  - done.
  - destruct (represents_reopen self rs Hrep) as (self1 & -> & Hrep1).
    by apply (IH _ rs).
Qed.

(** A session from a new path, or from a file of whole records. *)
Lemma session_represents disk rs events :
  encode_log order rs = Some (default [] disk) →
  Forall event_ok events →
  ∃ self0 self rs',
    __init__ disk true = Ok self0
    ∧ play order events self0 = Ok self
    ∧ represents order self rs'.
Proof.
  intros Hlog Hev.
  destruct (init_represents disk rs Hlog) as (self0 & Hinit & Hrep0).
  destruct (play_represents events Hev self0 rs (written ∅ rs) Hrep0)
    as (self & rs' & Hplay & Hrep & _); [done|].
  by exists self0, self, rs'.
Qed.

(** Replay consumes the file: the write position it ends on is never
    short of the bytes it was given. *)
Lemma loop_cursor rest kd wp kd' wp' :
  _init_key_dir_loop rest kd wp = Ok (kd', wp') → wp + len rest ≤ wp'.
Proof.
  revert kd' wp'.
  funelim (disk_store._init_key_dir_loop order rest kd wp);
    intros kd' wp' Hloop.
  - injection Hloop as <- <-.
    change (Z.to_nat format.HEADER_SIZE) with 12%nat in *.
    destruct rest; [unfold len; cbn [length]; lia|done].
  - pose proof (decode_header_nonneg _ _ _ _ _ Hdecode) as (_ & Hks & Hvs).
    destruct (Utf8.decode _) as [key|] eqn:Hkey; [|done].
    apply H in Hloop. revert Hloop.
    unfold f_seek_cur, f_read, len, format.HEADER_SIZE.
    change (Z.to_nat 12) with 12%nat.
    destruct (Z.ltb_spec key_size 0); [lia|].
    cbn [snd]. rewrite !length_drop. lia.
  - done.
Qed.

(** What a failed [set] leaves behind: the same key directory and write
    position, the handle as open as it was, and a file that has grown. *)
Lemma set_fault_state now k v fault self :
  fault ≠ NoFault →
  ∃ o suffix,
    (set now k v fault self).2
    = mkDiskStorage (key_dir self) (write_position self)
        (mkFile (contents (file self) ++ suffix) o (closed (file self))).
Proof.
  intros Hfault. rewrite set_eval. destruct self as [kd wp [c o cl]]. cbn.
  destruct (encode_kv now k v) as [[sz data]|].
  - destruct cl; [exists o, []; by rewrite app_nil_r|].
    destruct fault; [done|by eexists _, _..].
  - exists o, []. by rewrite app_nil_r.
Qed.

Lemma step_contents c self :
  ∃ suffix,
    contents (file (step order c self)) = contents (file self) ++ suffix.
Proof.
  assert (Hset : ∀ now k v fault,
    ∃ suffix, contents (file (set now k v fault self).2)
              = contents (file self) ++ suffix).
  { intros now k v fault. rewrite set_eval.
    destruct (encode_kv now k v) as [[sz data]|];
      [|exists []; by rewrite app_nil_r].
    cbn zeta. destruct (closed (file self));
      [exists []; by rewrite app_nil_r|].
    destruct fault; by eexists. }
  destruct c as [now k v fault|k|now k fault| |fault]; unfold step.
  - apply Hset.
  - destruct (get_frame k self) as [o ->]. exists []. by rewrite app_nil_r.
  - rewrite remove_eval.
    destruct (key_dir self !! k); [|exists []; by rewrite app_nil_r].
    destruct (Hset now k [] fault) as [suffix Hs].
    destruct (set now k [] fault self) as [[[]|e] self']; by exists suffix.
  - exists []. by rewrite app_nil_r.
  - rewrite close_eval. cbn zeta. exists [].
    rewrite app_nil_r. by repeat case_match.
Qed.

End StoreFacts.

(* ===================================================================== *)
(** * The claims on sessions *)
(* ===================================================================== *)

Section SessionClaims.
Variable order : byte_order.
Import disk_store.

Abbreviation set := (disk_store.set order).
Abbreviation get := (disk_store.get order).
Abbreviation __init__ := (disk_store.__init__ order).

(** C4.  [get(k)] immediately after [set(k, v)] returns [v].

    First, on every open engine whose write position is the length of its
    file, whatever the key directory held for [k] before; and the engine
    that the [set] leaves is such an engine again, so that the same holds
    for the next [set], of [k] or of another key.

    Second, at any point of a session: the engine is opened on a new path
    or on a file of whole records; calls of [set], [get], [remove] and
    [list] and reopens follow, in any number and order, earlier [set]s and
    [remove]s of [k] among them; every one of them returns; then
    [set(k, v)] returns and [get(k)] returns [v].

    Third, on a new engine, after any calls that never set [k], [get(k)]
    returns the empty string. *)
Theorem set_then_get :
  (∀ self now k v,
     in_sync self → valid_record now k v →
     ∃ self', set now k v NoFault self = (Ok tt, self')
              ∧ (get k self').1 = Ok v
              ∧ in_sync self')
  ∧ (∀ disk rs events now k v,
       encode_log order rs = Some (default [] disk) →
       Forall event_ok events → valid_record now k v →
       ∃ self0 self self',
         __init__ disk true = Ok self0
         ∧ play order events self0 = Ok self
         ∧ set now k v NoFault self = (Ok tt, self')
         ∧ (get k self').1 = Ok v)
  ∧ (∀ calls k,
       Forall (λ c, ¬ sets_key k c) calls →
       __init__ None true = Ok new_engine
       ∧ (get k (run order calls new_engine)).1 = Ok []).
Proof.
  split; [|split].
  - intros self now k v Hsync Hvalid.
    destruct (set_get_in_sync order now k v self Hsync Hvalid)
      as (self' & Hset & Hsync' & _ & Hget). eauto.
  - intros disk rs events now k v Hlog Hev Hvalid.
    destruct (session_represents order disk rs events Hlog Hev)
      as (self0 & self & rs' & Hinit & Hplay & Hsync & _).
    destruct (set_get_in_sync order now k v self Hsync Hvalid)
      as (self' & Hset & _ & _ & Hget).
    by exists self0, self, self'.
  - intros calls k Hcalls. split; [done|].
    rewrite get_absent; [done|]. by apply run_absent.
Qed.

(** C10.  The empty string is a key like any other: [set] of the empty
    key to [v] returns, the [get] of the empty key that follows returns
    [v], and the empty key is in [list()].

    First, on every open engine whose write position is the length of its
    file, and the engine that the [set] leaves is such an engine again.

    Second, at any point of a session: the engine is opened on a new path
    or on a file of whole records; calls of [set], [get], [remove] and
    [list] and reopens follow, on the empty key and on other keys; every
    one of them returns; then [set] of the empty key to [v] returns,
    [get] of the empty key returns [v] and [list()] holds the empty
    key. *)
Theorem empty_key_supported :
  (∀ self now v,
     in_sync self → valid_record now [] v →
     ∃ self' keys,
       set now [] v NoFault self = (Ok tt, self')
       ∧ (get [] self').1 = Ok v
       ∧ (disk_store.list self').1 = Ok keys
       ∧ [] ∈ keys
       ∧ in_sync self')
  ∧ (∀ disk rs events now v,
       encode_log order rs = Some (default [] disk) →
       Forall event_ok events → valid_record now [] v →
       ∃ self0 self self' keys,
         __init__ disk true = Ok self0
         ∧ play order events self0 = Ok self
         ∧ set now [] v NoFault self = (Ok tt, self')
         ∧ (get [] self').1 = Ok v
         ∧ (disk_store.list self').1 = Ok keys
         ∧ [] ∈ keys).
Proof.
  split.
  - intros self now v Hsync Hvalid.
    destruct (set_get_in_sync order now [] v self Hsync Hvalid)
      as (self' & Hset & Hsync' & Hin & Hget).
    exists self', (map_to_list (key_dir self')).*1. by rewrite list_eval.
  - intros disk rs events now v Hlog Hev Hvalid.
    destruct (session_represents order disk rs events Hlog Hev)
      as (self0 & self & rs' & Hinit & Hplay & Hsync & _).
    destruct (set_get_in_sync order now [] v self Hsync Hvalid)
      as (self' & Hset & _ & Hin & Hget).
    exists self0, self, self', (map_to_list (key_dir self')).*1.
    by rewrite list_eval.
Qed.

End SessionClaims.

(** Closes the side condition that the disk serves every event of a
    concrete session. *)
Ltac session_ok :=
  repeat (constructor; [cbn [event_ok]; first [exact I | concrete]|]);
  constructor.

(** C4: on a new engine; after [name_session], in which ["name"] was set
    twice already; and for a key that was never set. *)
Lemma set_then_get_witness :
  ((in_sync new_engine ∧ valid_record 7 (py "name") (py "jojo"))
   ∧ ∃ self',
       disk_store.set LittleEndian 7 (py "name") (py "jojo") NoFault new_engine
       = (Ok tt, self')
       ∧ (disk_store.get LittleEndian (py "name") self').1 = Ok (py "jojo")
       ∧ in_sync self')
  ∧ ((encode_log LittleEndian [] = Some (default [] None)
      ∧ Forall event_ok name_session
      ∧ valid_record 11 (py "name") (py "last"))
     ∧ ∃ self0 self self',
         disk_store.__init__ LittleEndian None true = Ok self0
         ∧ play LittleEndian name_session self0 = Ok self
         ∧ disk_store.set LittleEndian 11 (py "name") (py "last") NoFault self
           = (Ok tt, self')
         ∧ (disk_store.get LittleEndian (py "name") self').1
           = Ok (py "last"))
  ∧ (disk_store.get LittleEndian (py "never")
       (run LittleEndian
          [CallSet 7 (py "name") (py "jojo") NoFault;
           CallRemove 8 (py "name") NoFault; CallList]
          new_engine)).1 = Ok [].
Proof.
  split; [|split].
  - split; [concrete|].
    apply (proj1 (set_then_get LittleEndian)); concrete.
  - split; [split; [reflexivity|split; [unfold name_session; session_ok
                                       |concrete]]|].
    apply (proj1 (proj2 (set_then_get LittleEndian)) None [] name_session);
      [reflexivity | unfold name_session; session_ok | concrete].
  - apply (proj2 (proj2 (set_then_get LittleEndian))).
    repeat (constructor;
            [intros H; vm_compute in H; first [discriminate | contradiction]|]).
    constructor.
Defined.

(** C10: on a new engine; and on the file [name_log], after a [set] of
    another key, a reopen and a [remove] of the empty key. *)
Lemma empty_key_supported_witness :
  ((in_sync new_engine ∧ valid_record 7 [] (py "jojo"))
   ∧ ∃ self' keys,
       disk_store.set LittleEndian 7 [] (py "jojo") NoFault new_engine
       = (Ok tt, self')
       ∧ (disk_store.get LittleEndian [] self').1 = Ok (py "jojo")
       ∧ (disk_store.list self').1 = Ok keys
       ∧ [] ∈ keys
       ∧ in_sync self')
  ∧ ((encode_log LittleEndian [(7, py "name", py "jojo")]
      = Some (default [] (Some name_log))
      ∧ Forall event_ok
          [Call (CallSet 8 (py "a") (py "x") NoFault);
           Call (CallSet 9 [] (py "first") NoFault);
           Reopen;
           Call (CallRemove 10 [] NoFault)]
      ∧ valid_record 11 [] (py "jojo"))
     ∧ ∃ self0 self self' keys,
         disk_store.__init__ LittleEndian (Some name_log) true = Ok self0
         ∧ play LittleEndian
             [Call (CallSet 8 (py "a") (py "x") NoFault);
              Call (CallSet 9 [] (py "first") NoFault);
              Reopen;
              Call (CallRemove 10 [] NoFault)]
             self0
           = Ok self
         ∧ disk_store.set LittleEndian 11 [] (py "jojo") NoFault self
           = (Ok tt, self')
         ∧ (disk_store.get LittleEndian [] self').1 = Ok (py "jojo")
         ∧ (disk_store.list self').1 = Ok keys
         ∧ [] ∈ keys).
Proof.
  split.
  - split; [concrete|].
    apply (proj1 (empty_key_supported LittleEndian)); concrete.
  - split; [split; [reflexivity|split; [session_ok|concrete]]|].
    apply (proj2 (empty_key_supported LittleEndian) (Some name_log)
             [(7, py "name", py "jojo")]);
      [reflexivity | session_ok | concrete].
Defined.

Section StoreTheorems.
Variable order : byte_order.
Import disk_store.

Abbreviation encode_kv := (format.encode_kv order).
Abbreviation set := (disk_store.set order).
Abbreviation get := (disk_store.get order).
Abbreviation remove := (disk_store.remove order).
Abbreviation __init__ := (disk_store.__init__ order).

(** X1.  The engine is a dictionary that answers the empty string for a
    missing key.  Over any session that starts on a new file -- calls of
    [set], [get], [remove] and [list] with records that fit the header and
    a disk that works, and closes followed by a fresh open of the file --
    every call returns, and at the end [get(k)] returns, for every key, the
    value of the last [set(k, _)], or the empty string when [k] was never
    set or was removed after its last [set]. *)
Theorem engine_is_a_dictionary events :
  Forall event_ok events →
  ∃ self,
    play order events new_engine = Ok self
    ∧ ∀ k, (get k self).1 = Ok (value_in (dict_after events) k).
Proof.
  intros Hev.
  destruct (play_represents order events Hev new_engine [] ∅
              (represents_new order) (λ k, eq_refl))
    as (self & rs & Hplay & Hrep & Hdict).
  exists self. split; [done|]. intros k.
  rewrite (proj1 (represents_get order k self rs Hrep)).
  unfold dict_after. by rewrite Hdict.
Qed.

(** X2.  Opening the log that holds the records [rs] succeeds; the write
    position is the length of the log, [list()] holds exactly the keys
    that occur in [rs] -- the keys of records with an empty value too --
    and [get(k)] returns the value of the last record of key [k]. *)
Theorem open_indexes_the_log rs log :
  encode_log order rs = Some log →
  ∃ self keys,
    __init__ (Some log) true = Ok self
    ∧ write_position self = len log
    ∧ (disk_store.list self).1 = Ok keys
    ∧ NoDup keys
    ∧ (∀ k, k ∈ keys ↔ k ∈ record_key <$> rs)
    ∧ ∀ k, (get k self).1 = Ok (value_in (written ∅ rs) k).
Proof.
  intros Hlog%encode_log_encodes.
  destruct (represents_open order rs log Hlog) as (self & Hinit & Hrep & Hkeys).
  exists self, (map_to_list (key_dir self)).*1.
  split; [done|]. split; [|split; [done|split; [|split; [done|]]]].
  - destruct Hrep as ([_ Hwp] & _). rewrite Hwp.
    unfold disk_store.__init__ in Hinit.
    destruct (disk_store._init_key_dir _ _ _ _) as [[kd wp]|]; [|done].
    by injection Hinit as <-.
  - apply NoDup_fst_map_to_list.
  - intros k. apply (represents_get order k self rs Hrep).
Qed.

(** X3.  On an open handle, [set(k, v)] of a record that fits adds [k] to
    what [list()] returns, once, and [remove(k)] takes [k] out of it;
    the other keys of [list()] stay. *)
Theorem list_follows_set_and_remove self now k v :
  closed (file self) = false → valid_record now k v →
  valid_record now k [] →
  (∃ self' keys,
     set now k v NoFault self = (Ok tt, self')
     ∧ (disk_store.list self').1 = Ok keys ∧ NoDup keys
     ∧ ∀ k', k' ∈ keys ↔ k' = k ∨ k' ∈ (map_to_list (key_dir self)).*1)
  ∧ (∃ self' keys,
       remove now k NoFault self = (Ok tt, self')
       ∧ (disk_store.list self').1 = Ok keys ∧ NoDup keys
       ∧ ∀ k', k' ∈ keys ↔ k' ≠ k ∧ k' ∈ (map_to_list (key_dir self)).*1).
Proof.
  intros Hopen (sz & data & He)%(encode_kv_total order)
    (sz' & data' & He')%(encode_kv_total order).
  split.
  - eexists _, _. split; [by apply set_NoFault|]. cbn [fst key_dir].
    split; [by rewrite list_eval|]. split; [apply NoDup_fst_map_to_list|].
    intros k'. cbn. rewrite !keys_of_spec, lookup_insert.
    case_decide as Hkey; subst.
    + split; [by left|by eexists].
    + split; [by right|]. by intros [->|?].
  - rewrite remove_eval. destruct (key_dir self !! k) as [e|] eqn:Hk.
    + rewrite (set_NoFault order _ _ _ _ _ _ Hopen He').
      eexists _, _. split; [done|]. split; [by rewrite list_eval|].
      split; [apply NoDup_fst_map_to_list|].
      intros k'. cbn. rewrite !keys_of_spec, lookup_delete.
      case_decide; subst.
      * split; [by intros [? [=]]|by intros []].
      * rewrite lookup_insert_ne by done. split; [by split|by intros []].
    + exists self, (map_to_list (key_dir self)).*1. split; [done|].
      split; [done|]. split; [apply NoDup_fst_map_to_list|].
      intros k'. rewrite !keys_of_spec. split; [|by intros []].
      intros Hk'. split; [|done]. intros ->. rewrite Hk in Hk'.
      by destruct Hk' as [? [=]].
Qed.

(** X4.  The log is append-only.  No sequence of calls, whatever they
    return or raise and whatever the disk does, changes or removes a byte
    that is in the file: the file after the calls is the file before them
    followed by a suffix.  And an open leaves the file as it found it. *)
Theorem log_is_append_only :
  (∀ calls self,
     ∃ suffix,
       contents (file (run order calls self))
       = contents (file self) ++ suffix)
  ∧ (∀ data openable self,
       __init__ (Some data) openable = Ok self →
       contents (file self) = data).
Proof.
  split.
  - intros calls. unfold run.
    induction calls as [|c calls IH]; intros self.
    + exists []. by rewrite app_nil_r.
    + cbn [fold_left]. destruct (IH (step order c self)) as [s2 ->].
      destruct (step_contents order c self) as [s1 ->].
      exists (s1 ++ s2). by rewrite app_assoc.
  - intros data openable self. unfold disk_store.__init__.
    destruct (disk_store._init_key_dir _ _ _ _) as [[kd wp]|]; [|done].
    cbn. destruct openable; [|done]. by intros [= <-].
Qed.

(** X5.  When the open of an existing file succeeds, the write position
    is at least the length of the file; it is the length of the file when
    the file is a sequence of whole records. *)
Theorem open_write_position data openable self :
  __init__ (Some data) openable = Ok self →
  len data ≤ write_position self
  ∧ (wf_log order data → write_position self = len data).
Proof.
  unfold disk_store.__init__, disk_store._init_key_dir. cbn.
  destruct (disk_store._init_key_dir_loop order data ∅ 0)
    as [[kd wp]|] eqn:Hloop; [|done].
  cbn. destruct openable; [|done]. intros [= <-]. cbn. split.
  - apply (loop_cursor order) in Hloop. lia.
  - intros Hlog. destruct (loop_wf_log order data [] ∅ 0 Hlog) as [kd' Hloop'].
    rewrite app_nil_r, loop_nil, Hloop in Hloop'.
    injection Hloop' as _ ->. lia.
Qed.

(** X6.  A [set] or a [remove] whose record reached the file and whose
    [os.fsync] raised does not damage what the engine holds: at any point
    of a session that the disk served, the key directory after the failed
    call is the one before it, and every [get] after the failed call
    returns what it returned before, the value that a dictionary holds
    after the calls of the session. *)
Theorem failed_sync_keeps_reads events self c :
  Forall event_ok events → play order events new_engine = Ok self →
  sync_fails c →
  key_dir (step order c self) = key_dir self
  ∧ ∀ k, (get k (step order c self)).1 = (get k self).1
         ∧ (get k self).1 = Ok (value_in (dict_after events) k).
Proof.
  intros Hev Hplay Hc.
  destruct (play_represents order events Hev new_engine [] ∅
              (represents_new order) (λ k, eq_refl))
    as (self' & rs & Hplay' & ([Hopen Hwp] & Hlog & Ha) & Hdict).
  rewrite Hplay in Hplay'. injection Hplay' as <-.
  assert (Hstate : ∃ o suffix,
    step order c self
    = mkDiskStorage (key_dir self) (write_position self)
        (mkFile (contents (file self) ++ suffix) o false)).
  { destruct c as [now k v fault|k|now k fault| |fault]; try done;
      unfold step; cbn in Hc; subst fault.
    - rewrite <- Hopen. by apply set_fault_state.
    - assert (Hself : ∃ o suffix,
        self = mkDiskStorage (key_dir self) (write_position self)
                 (mkFile (contents (file self) ++ suffix) o false)).
      { exists (offset (file self)), []. rewrite app_nil_r, <- Hopen.
        by destruct self as [? ? []]. }
      rewrite remove_eval. destruct (key_dir self !! k); [|done].
      rewrite set_eval.
      destruct (encode_kv now k []) as [[sz data]|]; [|done].
      cbn zeta. rewrite Hopen. by eexists _, _. }
  destruct Hstate as (o & suffix & ->). split; [done|]. intros k.
  rewrite (get_answers order k self _ Hopen Ha).
  unfold dict_after. rewrite Hdict.
  split; [|done]. apply get_answers; [done|]. by apply answers_app.
Qed.

(** X7.  A [set] whose [os.fsync] raised leaves its record in the file
    and the write position before it, and the engine never catches up: at
    any point of a session that the disk served, after [set(k, v)] has
    raised in this way, the next [set(k2, v2)] returns, its record is
    appended after the record of the failed call, and its key directory
    entry has the position of the record of the failed call.  When the two
    records have the same size, as for two values of the same length
    under one key, [get(k2)] returns [v], the value of the call that
    raised. *)
Theorem failed_sync_desyncs events self now k v now2 k2 v2 :
  Forall event_ok events → play order events new_engine = Ok self →
  valid_record now k v → valid_record now2 k2 v2 →
  ∃ self1 self2 sz data sz2 data2,
    encode_kv now k v = Ok (sz, data)
    ∧ encode_kv now2 k2 v2 = Ok (sz2, data2)
    ∧ set now k v SyncFault self = (Raise OSError, self1)
    ∧ key_dir self1 = key_dir self
    ∧ set now2 k2 v2 NoFault self1 = (Ok tt, self2)
    ∧ contents (file self2) = (contents (file self) ++ data) ++ data2
    ∧ key_dir self2 !! k2
      = Some (mkKeyEntry now2 (len (contents (file self))) sz2)
    ∧ write_position self2 + sz = len (contents (file self2))
    ∧ (sz2 = sz → (get k2 self2).1 = Ok v).
Proof.
  intros Hev Hplay (sz & data & He)%(encode_kv_total order)
    (sz2 & data2 & He2)%(encode_kv_total order).
  destruct (play_represents order events Hev new_engine [] ∅
              (represents_new order) (λ k, eq_refl))
    as (self' & rs & Hplay' & ([Hopen Hwp] & _) & _).
  rewrite Hplay in Hplay'. injection Hplay' as <-.
  pose proof (encode_kv_size _ _ _ _ _ _ He) as (Hlen & Hsz & _).
  pose proof (encode_kv_size _ _ _ _ _ _ He2) as (Hlen2 & Hsz2 & _).
  eexists _, _, sz, data, sz2, data2. split; [done|]. split; [done|]. split.
  { rewrite set_eval, He. cbn zeta. by rewrite Hopen. }
  split; [done|]. split; [by apply set_NoFault|].
  cbn [contents file key_dir write_position].
  split; [done|]. split; [by rewrite lookup_insert_eq, Hwp|]. split.
  - unfold len in *. rewrite Hwp, !length_app. lia.
  - intros ->.
    eapply (get_record order k2 _ _ (contents (file self)) data data2).
    + cbn. apply lookup_insert_eq.
    + done.
    + cbn. by rewrite <- app_assoc.
    + cbn. by rewrite Hwp.
    + cbn. by rewrite Hlen.
    + rewrite <- (app_nil_r data). by eapply decode_kv_app.
Qed.

(** X8.  After a [remove(k)] that returned, [k] is not in the key
    directory and a second [remove(k)] returns without changing the
    engine or the file, whatever the disk does. *)
Theorem remove_twice self now k fault self' now' fault' :
  remove now k fault self = (Ok tt, self') →
  key_dir self' !! k = None
  ∧ remove now' k fault' self' = (Ok tt, self').
Proof.
  intros Hrem. assert (Hk : key_dir self' !! k = None).
  { rewrite remove_eval in Hrem. destruct (key_dir self !! k) eqn:Hk0.
    - destruct (set now k [] fault self) as [[[]|e] s1]; [|done].
      injection Hrem as <-. cbn. apply lookup_delete_eq.
    - by injection Hrem as <-. }
  split; [done|]. by rewrite remove_eval, Hk.
Qed.

(** X9.  [get] reads only.  At any point of a session that the disk
    served, [get(k)] leaves the key directory, the write position, the
    bytes of the file and the state of the handle as they were, and it
    does not change what any later [get] returns. *)
Theorem get_reads_only events self k :
  Forall event_ok events → play order events new_engine = Ok self →
  key_dir (get k self).2 = key_dir self
  ∧ write_position (get k self).2 = write_position self
  ∧ contents (file (get k self).2) = contents (file self)
  ∧ closed (file (get k self).2) = closed (file self)
  ∧ ∀ k', (get k' (get k self).2).1 = (get k' self).1
          ∧ (get k' self).1 = Ok (value_in (dict_after events) k').
Proof.
  intros Hev Hplay.
  destruct (play_represents order events Hev new_engine [] ∅
              (represents_new order) (λ k, eq_refl))
    as (self' & rs & Hplay' & Hrep & Hdict).
  rewrite Hplay in Hplay'. injection Hplay' as <-.
  destruct (get_frame order k self) as [o Hframe]. rewrite Hframe.
  repeat split.
  - destruct self as [kd wp [c o' cl]]. apply get_offset.
  - rewrite (proj1 (represents_get order k' self rs Hrep)).
    unfold dict_after. by rewrite Hdict.
Qed.

End StoreTheorems.

(* ===================================================================== *)
(** * Properties of the shell *)
(* ===================================================================== *)

Section ShellFacts.
Variable order : byte_order.
Import disk_store __main__.

Abbreviation set := (disk_store.set order).
Abbreviation get := (disk_store.get order).
Abbreviation remove := (disk_store.remove order).
Abbreviation run_command := (__main__.run_command order).
Abbreviation repl := (__main__.repl order).

Lemma split_from_words word s :
  Forall (λ c, isspace c = false) word →
  Forall is_word (split_from word s).
Proof.
  revert word. induction s as [|c s IH]; intros word Hword; cbn.
  - destruct word; constructor; [by split|constructor].
  - destruct (isspace c) eqn:Hc.
    + destruct word; [by apply IH|].
      constructor; [by split|]. by apply IH.
    + apply IH. apply Forall_app. split; [done|]. by constructor.
Qed.

Lemma split_words s : Forall is_word (split s).
Proof. by apply split_from_words. Qed.

Lemma split_from_spaces s :
  Forall (λ c, isspace c = true) s → split_from [] s = [].
Proof. induction 1 as [|c s Hc _ IH]; [done|]. cbn. by rewrite Hc. Qed.

(** Reading a word to its end, at the end of the line or at a space. *)
Lemma split_from_word word w :
  Forall (λ c, isspace c = false) w → word ++ w ≠ [] →
  split_from word w = [word ++ w]
  ∧ ∀ c rest, isspace c = true →
      split_from word (w ++ c :: rest) = (word ++ w) :: split_from [] rest.
Proof.
  intros Hw. revert word.
  induction Hw as [|a w Ha _ IH]; intros word Hne.
  - rewrite app_nil_r in *. split.
    + cbn. by destruct word.
    + intros c rest Hc. cbn. rewrite Hc. by destruct word.
  - destruct (IH (word ++ [a])) as [IH1 IH2].
    { by destruct word. }
    rewrite <- app_assoc in IH1, IH2. cbn in IH1, IH2.
    split; [cbn; by rewrite Ha|].
    intros c rest Hc. cbn. rewrite Ha. by apply IH2.
Qed.

Lemma split_line_of words :
  Forall is_word words → split (line_of words) = words.
Proof.
  unfold split. induction 1 as [|w words [Hne Hw] Hwords IH]; [done|].
  destruct words as [|w' words].
  - cbn [line_of]. by apply (split_from_word [] w).
  - change (line_of (w :: w' :: words))
      with (w ++ 32%N :: line_of (w' :: words)).
    rewrite (proj2 (split_from_word [] w Hw Hne) 32%N _ eq_refl).
    by rewrite IH.
Qed.

(** A call of [set] or [remove] touches the key directory at its key
    only. *)
Lemma set_other now k v fault self k' :
  k' ≠ k → key_dir (set now k v fault self).2 !! k' = key_dir self !! k'.
Proof.
  intros Hk. rewrite set_eval.
  destruct (format.encode_kv order now k v) as [[sz data]|]; [|done].
  cbn zeta. destruct (closed (file self)); [done|].
  destruct fault; cbn; by rewrite ?lookup_insert_ne.
Qed.

Lemma remove_other now k fault self k' :
  k' ≠ k → key_dir (remove now k fault self).2 !! k' = key_dir self !! k'.
Proof.
  intros Hk. rewrite remove_eval. destruct (key_dir self !! k); [|done].
  pose proof (set_other now k [] fault self k' Hk) as Hset.
  destruct (set now k [] fault self) as [[[]|e] self']; [|done].
  cbn in *. by rewrite lookup_delete_ne.
Qed.

(** A command changes the key directory at words only. *)
Lemma run_command_keeps line now fault store k :
  ¬ is_word k →
  key_dir (run_command line now fault store).2 !! k = key_dir store !! k.
Proof.
  intros Hk. destruct line as [[|c inp]|]; [done| |done].
  unfold __main__.run_command.
  pose proof (split_words (c :: inp)) as Hwords.
  destruct (split (c :: inp)) as [|command arguments]; [done|].
  apply Forall_cons in Hwords as [_ Hargs].
  unfold call_store.
  repeat case_bool_decide; try done.
  - destruct arguments as [|key [|]]; try done.
    pose proof (get_frame order key store) as [o Hs].
    destruct (get key store) as [[v|e] store']; cbn in *; by subst.
  - destruct arguments as [|key [|]]; try done.
    apply Forall_cons in Hargs as [Hkey _].
    assert (Hne : k ≠ key) by by intros ->.
    pose proof (remove_other now key fault store k Hne) as Hs.
    by destruct (remove now key fault store) as [[[]|e] store'].
  - destruct arguments as [|key [|value [|]]]; try done.
    apply Forall_cons in Hargs as [Hkey _].
    assert (Hne : k ≠ key) by by intros ->.
    pose proof (set_other now key value fault store k Hne) as Hs.
    by destruct (set now key value fault store) as [[[]|e] store'].
Qed.

(** Where a line starts with the given word, [run_command] is past its
    two first tests: the line is not empty and has a first part. *)
Lemma run_command_split inp command arguments now fault store :
  split inp = command :: arguments →
  run_command (Some inp) now fault store
  = run_command (Some (line_of (command :: arguments))) now fault store.
Proof.
  intros Hsplit. pose proof (split_words inp) as Hwords.
  rewrite Hsplit in Hwords.
  pose proof (split_line_of _ Hwords) as Hline.
  destruct inp as [|c inp]; [done|].
  destruct (line_of (command :: arguments)) as [|c' inp'] eqn:Hl; [done|].
  unfold __main__.run_command. by rewrite Hsplit, Hline.
Qed.

Lemma run_command_exit line now fault store :
  head (split line) = Some (py "exit") →
  run_command (Some line) now fault store = (Returned EXIT, [], store).
Proof.
  destruct (split line) as [|command arguments] eqn:Hsplit; [done|].
  intros [= ->]. destruct line as [|c line]; [done|].
  unfold __main__.run_command. by rewrite Hsplit.
Qed.

End ShellFacts.

Section ShellTheorems.
Variable order : byte_order.
Import disk_store __main__.

Abbreviation get := (disk_store.get order).
Abbreviation run_command := (__main__.run_command order).
Abbreviation repl := (__main__.repl order).

(** X10.  A line that is not empty and holds white space only makes
    [run_command] raise IndexError: the line passes the test for the empty
    line, [split()] returns no part, and [parts[0]] has nothing to return.
    Nothing is printed and the store is not touched. *)
Theorem blank_line_raises inp now fault store :
  inp ≠ [] → Forall (λ c, isspace c = true) inp →
  run_command (Some inp) now fault store = (Raised IndexError, [], store).
Proof.
  intros Hne Hspace. destruct inp as [|c inp]; [done|].
  unfold __main__.run_command, split. by rewrite split_from_spaces.
Qed.

(** X11.  Through the shell, only words reach the key directory: a key
    that is empty or holds a white space character keeps the entry it has,
    or stays without one, over any command and over any run of the
    read-eval-print loop, whatever the lines, the clock and the disk. *)
Theorem shell_touches_words_only k :
  ¬ is_word k →
  (∀ line now fault store,
     key_dir (run_command line now fault store).2 !! k = key_dir store !! k)
  ∧ (∀ inputs store,
       key_dir (repl inputs store).2 !! k = key_dir store !! k).
Proof.
  intros Hk. split.
  - intros line now fault store. by apply run_command_keeps.
  - induction inputs as [|[[line now] fault] inputs IH]; intros store; [done|].
    cbn [__main__.repl].
    pose proof (run_command_keeps order (Some line) now fault store k Hk) as Hs.
    destruct (run_command (Some line) now fault store)
      as [[[[| |]|e] out] store']; cbn in Hs; try done.
    + specialize (IH store').
      destruct (repl inputs store') as [[r out'] store'']. cbn in *.
      congruence.
    + specialize (IH store').
      destruct (repl inputs store') as [[r out'] store'']. cbn in *.
      congruence.
Qed.

(** X12.  For words [k] and [v] whose record fits the header, on an open
    store in sync with its file: the line "set k v" returns OK and prints
    nothing, and the line "get k" then returns OK and prints [v]. *)
Theorem shell_set_then_get k v now store :
  is_word k → is_word v → in_sync store → valid_record now k v →
  ∃ store',
    run_command (Some (line_of [py "set"; k; v])) now NoFault store
    = (Returned OK, [], store')
    ∧ ∀ now' fault',
        (run_command (Some (line_of [py "get"; k])) now' fault' store').1
        = (Returned OK, [PrintValue v]).
Proof.
  intros Hk Hv Hsync Hvalid.
  destruct (set_get_in_sync order now k v store Hsync Hvalid)
    as (store' & Hset & _ & _ & Hget).
  assert (Hset_word : is_word (py "set")).
  { split; [done|]. by repeat constructor. }
  assert (Hget_word : is_word (py "get")).
  { split; [done|]. by repeat constructor. }
  assert (Hs1 : split (line_of [py "set"; k; v]) = [py "set"; k; v]).
  { apply split_line_of. repeat (constructor; [done|]). constructor. }
  assert (Hs2 : split (line_of [py "get"; k]) = [py "get"; k]).
  { apply split_line_of. repeat (constructor; [done|]). constructor. }
  exists store'. split.
  - destruct (line_of [py "set"; k; v]) as [|c inp] eqn:Hl; [done|].
    unfold __main__.run_command. rewrite Hs1.
    repeat (case_bool_decide; [done|]). rewrite bool_decide_eq_true_2 by done.
    unfold call_store. by rewrite Hset.
  - intros now' fault'.
    destruct (line_of [py "get"; k]) as [|c inp] eqn:Hl; [done|].
    unfold __main__.run_command. rewrite Hs2.
    repeat (case_bool_decide; [done|]). rewrite bool_decide_eq_true_2 by done.
    unfold call_store.
    destruct (get k store') as [r store''] eqn:Hg. cbn in Hget. by subst.
Qed.

(** X13.  The loop ends at the first line whose first word is "exit":
    the lines after it are not read, so the loop does what it does when
    the input ends there. *)
Theorem repl_stops_at_exit inputs line now fault inputs' store :
  head (split line) = Some (py "exit") →
  repl (inputs ++ (line, now, fault) :: inputs') store = repl inputs store.
Proof.
  intros Hexit. revert store.
  induction inputs as [|[[l n] f] inputs IH]; intros store.
  - cbn [app __main__.repl].
    by rewrite (run_command_exit order line now fault store Hexit).
  - cbn [app __main__.repl].
    destruct (run_command (Some l) n f store) as [[[[| |]|e] out] store'];
      try done; by rewrite IH.
Qed.

End ShellTheorems.

(* ===================================================================== *)
(** * The further properties at concrete inputs *)
(* ===================================================================== *)

(** X1 on the session of [test_list]. *)
Lemma engine_is_a_dictionary_witness :
  Forall event_ok list_session
  ∧ ∃ self,
      play LittleEndian list_session new_engine = Ok self
      ∧ ∀ k, (disk_store.get LittleEndian k self).1
             = Ok (value_in (dict_after list_session) k).
Proof.
  split; [unfold list_session; session_ok|].
  apply (engine_is_a_dictionary LittleEndian list_session).
  unfold list_session. session_ok.
Defined.

(** X2 on the log of [set("name", "jojo")] and [remove("name")]. *)
Lemma open_indexes_the_log_witness :
  ∃ log self keys,
    encode_log LittleEndian [(7, py "name", py "jojo"); (8, py "name", [])]
    = Some log
    ∧ disk_store.__init__ LittleEndian (Some log) true = Ok self
    ∧ disk_store.write_position self = len log
    ∧ (disk_store.list self).1 = Ok keys
    ∧ NoDup keys
    ∧ (∀ k, k ∈ keys
            ↔ k ∈ record_key <$> [(7, py "name", py "jojo"); (8, py "name", [])])
    ∧ ∀ k, (disk_store.get LittleEndian k self).1
           = Ok (value_in
                   (written ∅ [(7, py "name", py "jojo"); (8, py "name", [])])
                   k).
Proof.
  eexists.
  pose proof (open_indexes_the_log LittleEndian
                [(7, py "name", py "jojo"); (8, py "name", [])] _ eq_refl)
    as (self & keys & H).
  exists self, keys. split; [reflexivity | exact H].
Defined.

(** X3 on an engine that holds ["alpha"] and ["beta"]. *)
Lemma list_follows_set_and_remove_witness :
  let self :=
    run LittleEndian
      [CallSet 5 (py "alpha") (py "abc") NoFault;
       CallSet 6 (py "beta") (py "abc") NoFault]
      new_engine in
  (∃ self' keys,
     disk_store.set LittleEndian 7 (py "alpha") (py "xyz") NoFault self
     = (Ok tt, self')
     ∧ (disk_store.list self').1 = Ok keys ∧ NoDup keys
     ∧ ∀ k', k' ∈ keys
             ↔ k' = py "alpha"
               ∨ k' ∈ (map_to_list (disk_store.key_dir self)).*1)
  ∧ (∃ self' keys,
       disk_store.remove LittleEndian 7 (py "alpha") NoFault self
       = (Ok tt, self')
       ∧ (disk_store.list self').1 = Ok keys ∧ NoDup keys
       ∧ ∀ k', k' ∈ keys
               ↔ k' ≠ py "alpha"
                 ∧ k' ∈ (map_to_list (disk_store.key_dir self)).*1).
Proof.
  cbv zeta.
  apply (list_follows_set_and_remove LittleEndian
           (run LittleEndian
              [CallSet 5 (py "alpha") (py "abc") NoFault;
               CallSet 6 (py "beta") (py "abc") NoFault]
              new_engine)
           7 (py "alpha") (py "xyz")); concrete.
Defined.

(** X4 on a write that fails and on the truncated log. *)
Lemma log_is_append_only_witness :
  (∃ suffix,
     disk_store.contents (disk_store.file
       (run LittleEndian
          [CallSet 7 (py "name") (py "jojo") (WriteFault 5);
           CallRemove 8 (py "name") NoFault; CallClose NoFault]
          new_engine))
     = disk_store.contents (disk_store.file new_engine) ++ suffix)
  ∧ disk_store.contents (disk_store.file
      (disk_store.mkDiskStorage
         {[ py "k" := disk_store.mkKeyEntry 0 0 18 ]} 18
         (disk_store.mkFile (truncated_log LittleEndian) 15 false)))
    = truncated_log LittleEndian.
Proof.
  split.
  - apply (proj1 (log_is_append_only LittleEndian)).
  - apply (proj2 (log_is_append_only LittleEndian) _ true).
    vm_compute. reflexivity.
Defined.

(** X5 on the truncated log: 15 bytes, write position 18. *)
Lemma open_write_position_witness :
  len (truncated_log LittleEndian) ≤ 18
  ∧ (wf_log LittleEndian (truncated_log LittleEndian) →
     18 = len (truncated_log LittleEndian)).
Proof.
  apply (open_write_position LittleEndian (truncated_log LittleEndian) true
           (disk_store.mkDiskStorage
              {[ py "k" := disk_store.mkKeyEntry 0 0 18 ]} 18
              (disk_store.mkFile (truncated_log LittleEndian) 15 false))).
  vm_compute. reflexivity.
Defined.

(** X6 after [name_session], on a [set] of ["name"] whose sync fails:
    ["name"] still reads as ["dodo"]. *)
Lemma failed_sync_keeps_reads_witness :
  ∃ self,
    (Forall event_ok name_session
     ∧ play LittleEndian name_session new_engine = Ok self
     ∧ sync_fails (CallSet 11 (py "name") (py "lost") SyncFault))
    ∧ disk_store.key_dir
        (step LittleEndian (CallSet 11 (py "name") (py "lost") SyncFault) self)
      = disk_store.key_dir self
    ∧ (disk_store.get LittleEndian (py "name")
         (step LittleEndian (CallSet 11 (py "name") (py "lost") SyncFault)
            self)).1
      = Ok (py "dodo").
Proof.
  eexists.
  assert (Hev : Forall event_ok name_session)
    by (unfold name_session; session_ok).
  split; [split; [exact Hev|split; [vm_compute; reflexivity|reflexivity]]|].
  destruct (failed_sync_keeps_reads LittleEndian name_session _
              (CallSet 11 (py "name") (py "lost") SyncFault) Hev
              ltac:(vm_compute; reflexivity) eq_refl) as [Hkd Hget].
  split; [exact Hkd|].
  destruct (Hget (py "name")) as [-> ->]. vm_compute. reflexivity.
Defined.

(** X7 after [name_session]: [set("name", "lost")] raises at the sync,
    [set("name", "kept")] returns, and [get("name")] returns ["lost"]. *)
Lemma failed_sync_desyncs_witness :
  ∃ self self1 self2,
    (Forall event_ok name_session
     ∧ play LittleEndian name_session new_engine = Ok self
     ∧ valid_record 11 (py "name") (py "lost")
     ∧ valid_record 12 (py "name") (py "kept"))
    ∧ disk_store.set LittleEndian 11 (py "name") (py "lost") SyncFault self
      = (Raise OSError, self1)
    ∧ disk_store.set LittleEndian 12 (py "name") (py "kept") NoFault self1
      = (Ok tt, self2)
    ∧ disk_store.write_position self2 + 20
      = len (disk_store.contents (disk_store.file self2))
    ∧ (disk_store.get LittleEndian (py "name") self2).1 = Ok (py "lost").
Proof.
  eexists.
  assert (Hev : Forall event_ok name_session)
    by (unfold name_session; session_ok).
  destruct (failed_sync_desyncs LittleEndian name_session _
              11 (py "name") (py "lost") 12 (py "name") (py "kept") Hev
              ltac:(vm_compute; reflexivity)
              ltac:(concrete) ltac:(concrete))
    as (self1 & self2 & sz & data & sz2 & data2
        & He & He2 & Hset1 & _ & Hset2 & _ & _ & Hwp & Hget).
  vm_compute in He. injection He as <- <-.
  vm_compute in He2. injection He2 as <- <-.
  exists self1, self2.
  split; [split; [exact Hev|split; [vm_compute; reflexivity|concrete]]|].
  split; [exact Hset1|]. split; [exact Hset2|]. split; [exact Hwp|].
  exact (Hget eq_refl).
Defined.

(** X8 on a store that holds the key. *)
Lemma remove_twice_witness :
  let self :=
    (disk_store.set LittleEndian 7 (py "name") (py "jojo") NoFault new_engine).2 in
  let self' := (disk_store.remove LittleEndian 8 (py "name") NoFault self).2 in
  disk_store.key_dir self' !! py "name" = None
  ∧ disk_store.remove LittleEndian 9 (py "name") SyncFault self'
    = (Ok tt, self').
Proof.
  cbv zeta.
  apply (remove_twice LittleEndian
           (disk_store.set LittleEndian 7 (py "name") (py "jojo") NoFault
              new_engine).2
           8 (py "name") NoFault).
  vm_compute. reflexivity.
Defined.

(** X9 after [name_session], on [get("name")]. *)
Lemma get_reads_only_witness :
  ∃ self,
    (Forall event_ok name_session
     ∧ play LittleEndian name_session new_engine = Ok self)
    ∧ disk_store.key_dir (disk_store.get LittleEndian (py "name") self).2
      = disk_store.key_dir self
    ∧ disk_store.contents
        (disk_store.file (disk_store.get LittleEndian (py "name") self).2)
      = disk_store.contents (disk_store.file self)
    ∧ (disk_store.get LittleEndian (py "name")
         (disk_store.get LittleEndian (py "name") self).2).1
      = Ok (py "dodo").
Proof.
  eexists.
  assert (Hev : Forall event_ok name_session)
    by (unfold name_session; session_ok).
  split; [split; [exact Hev|vm_compute; reflexivity]|].
  destruct (get_reads_only LittleEndian name_session _ (py "name") Hev
              ltac:(vm_compute; reflexivity))
    as (Hkd & _ & Hc & _ & Hget).
  split; [exact Hkd|]. split; [exact Hc|].
  destruct (Hget (py "name")) as [-> ->]. vm_compute. reflexivity.
Defined.

(** X10 on a line of two spaces. *)
Lemma blank_line_raises_witness :
  __main__.run_command LittleEndian (Some [32; 32]%N) 7 NoFault new_engine
  = (__main__.Raised __main__.IndexError, [], new_engine).
Proof.
  apply (blank_line_raises LittleEndian); [discriminate|].
  repeat constructor.
Defined.

(** X11 on the empty key, over a loop that sets and removes a word. *)
Lemma shell_touches_words_only_witness :
  disk_store.key_dir
    (__main__.repl LittleEndian
       [(__main__.line_of [py "set"; py "name"; py "jojo"], 7, NoFault);
        (__main__.line_of [py "del"; py "name"], 8, SyncFault)]
       new_engine).2 !! []
  = disk_store.key_dir new_engine !! [].
Proof.
  apply (shell_touches_words_only LittleEndian []). intros [Hne _]. by apply Hne.
Defined.

(** X12 on a new engine: the lines "set name jojo" and "get name". *)
Lemma shell_set_then_get_witness :
  ∃ store',
    __main__.run_command LittleEndian
      (Some (__main__.line_of [py "set"; py "name"; py "jojo"])) 7 NoFault
      new_engine
    = (__main__.Returned __main__.OK, [], store')
    ∧ ∀ now' fault',
        (__main__.run_command LittleEndian
           (Some (__main__.line_of [py "get"; py "name"])) now' fault'
           store').1
        = (__main__.Returned __main__.OK, [__main__.PrintValue (py "jojo")]).
Proof.
  apply (shell_set_then_get LittleEndian (py "name") (py "jojo") 7 new_engine);
    try concrete; (split; [discriminate|]); vm_compute (py _);
    repeat constructor.
Defined.

(** X13: a [set] after "exit now" is not run. *)
Lemma repl_stops_at_exit_witness :
  __main__.repl LittleEndian
    ([(py "list", 7, NoFault)]
     ++ (py "exit now", 8, NoFault)
     :: [(__main__.line_of [py "set"; py "name"; py "jojo"], 9, NoFault)])
    new_engine
  = __main__.repl LittleEndian [(py "list", 7, NoFault)] new_engine.
Proof.
  apply (repl_stops_at_exit LittleEndian). vm_compute. reflexivity.
Defined.
